(** * Placement solver of the frame tab (src/ui/frame/frame_tab.py)

    A shallow embedding of the toolkit-independent part of [FrameTab]:
    the PM placement solver, the hinge position routine and the validation
    predicate, together with the theorems that settle the specification's
    claims about them.

    Numbers.  Python's [int] and [float] values are both embedded as exact
    rationals ([Q]); every arithmetic result below is therefore stated up to
    [Qeq] (written [==]).  The source computes on binary64 floats, so the
    embedding gives the source's values wherever its operations are exact,
    and values within a rounding error elsewhere.  A statement that compares
    a computed distance with its threshold is sensitive to that error and is
    made for [exact_inputs] only: binary fractions on which every sum,
    difference and halving of the solver is computed without rounding.

    Dynamic typing.  A dollar variable holds [None], a number or a string, and
    arithmetic or ordering on a non-number raises [TypeError], as in Python.
    Code that can raise returns a [result]. *)

From Stdlib Require Import QArith Qabs Lqa List Sorted.
From Stdlib Require Import PrimFloat.
From stdpp Require Import gmap strings.

Open Scope Q_scope.

(** ** Python values, exceptions and the operators the code applies to them *)

Inductive exn : Set := TypeError | ValueError.

Inductive result (A : Type) : Type :=
| Ok (a : A)
| Raise (e : exn).
Arguments Ok {A} a.
Arguments Raise {A} e.

Definition bind {A B : Type} (m : result A) (k : A -> result B) : result B :=
  match m with
  | Ok a => k a
  | Raise e => Raise e
  end.

Notation "x <- m ;; k" := (bind m (fun x => k))
  (at level 100, m at next level, right associativity).

(** The value of a dollar variable.  A number is kept as the rational it
    denotes.  The source holds it as an [int] or a binary64 [float]; its sums
    and differences are the rational ones whenever the operands and the
    result are binary fractions that fit a float, which [exact_inputs] below
    ensures for the solver and the validation. *)
Inductive value : Type :=
| VNone
| VNum (q : Q)
| VStr (s : string).

Definition Qlt_bool (x y : Q) : bool := negb (Qle_bool y x).

(** [max(a, b)] and [min(a, b)] return their first argument on a tie. *)
Definition py_max (a b : Q) : Q := if Qlt_bool a b then b else a.
Definition py_min (a b : Q) : Q := if Qlt_bool b a then b else a.

(** [bool(v)], which is also the test of [if v], [not v], [v and _], [v or _]. *)
Definition truthy (v : value) : bool :=
  match v with
  | VNone => false
  | VNum q => negb (Qeq_bool q 0)
  | VStr s => negb (String.eqb s "")
  end.

(** A number is required by [+], [-], [<], [<=], [>], [>=] against a number. *)
Definition num (v : value) : result Q :=
  match v with
  | VNum q => Ok q
  | _ => Raise TypeError
  end.

Definition py_add (v : value) (q : Q) : result Q := x <- num v ;; Ok (x + q).
Definition py_sub (v : value) (q : Q) : result Q := x <- num v ;; Ok (x - q).
Definition py_le (v : value) (q : Q) : result bool := x <- num v ;; Ok (Qle_bool x q).
Definition py_ge (v : value) (q : Q) : result bool := x <- num v ;; Ok (Qle_bool q x).
Definition py_gt (v : value) (q : Q) : result bool := x <- num v ;; Ok (Qlt_bool q x).

(** [v or 0] *)
Definition py_or0 (v : value) : value := if truthy v then v else VNum 0.

(** ** The dollar-variable store of the main window *)

(** Modelled from the spec: [MainWindow.get_dollar_variable] (ui/main_window.py
    is not part of the sources).  The spec calls a dollar variable "a named
    configuration value"; the callers test the result against [None], so a
    name without a value reads as [None]. *)
Definition get_dollar_variable (st : gmap string value) (name : string) : value :=
  default VNone (st !! name).

(** ** Configuration parameters *)

Definition MAX_FRAME_HEIGHT : Q := 2500.
Definition MIN_FRAME_HEIGHT : Q := 840.

Module PM_CONFIG.
(** ['sizes'][i] = [width, height] *)
Definition sizes (i : nat) : Q * Q :=
  match i with
  | 1%nat => (265, 140)
  | 2%nat => (140, 175)
  | 3%nat => (175, 240)
  | _ => (240, 120)
  end.
Definition lock_safety_distance : Q := 170.
Definition hinge_safety_distance : Q := 170.
Definition min_range_size : Q := 120.
End PM_CONFIG.

Definition min_pm1_to_pm2 : Q :=
  fst (PM_CONFIG.sizes 1) / 2 + fst (PM_CONFIG.sizes 2) / 2.
Definition min_pm2_to_pm3 : Q :=
  fst (PM_CONFIG.sizes 2) / 2 + fst (PM_CONFIG.sizes 3) / 2.
Definition min_pm3_to_pm4 : Q :=
  fst (PM_CONFIG.sizes 3) / 2 + fst (PM_CONFIG.sizes 4) / 2.
Definition pm4_half_height : Q := snd (PM_CONFIG.sizes 4) / 2.

(** ** Hinge positions *)

Definition hinge_last_pos (frame_height : value) : result Q :=
  tall <- py_ge frame_height 2000 ;;
  if tall then Ok 1800 else py_sub frame_height 200.

(** The body of the [try] block of [_calculate_hinge_positions]. *)
Definition hinge_positions_body (frame_height : value) (count : Z) : result (list Q) :=
  if negb (truthy frame_height) then Ok [] else
  nonpos <- py_le frame_height 0 ;;
  if nonpos || (count <=? 0)%Z then Ok [] else
  if (count =? 1)%Z then
    h <- num frame_height ;; Ok [h / 2]
  else if (count =? 2)%Z then
    last_pos <- hinge_last_pos frame_height ;;
    Ok [150; last_pos]
  else if (count =? 3)%Z then
    last_pos <- hinge_last_pos frame_height ;;
    let middle_pos := 150 + (last_pos - 150) / 2.5 in
    Ok [150; middle_pos; last_pos]
  else if (count =? 4)%Z then
    last_pos <- hinge_last_pos frame_height ;;
    let total_distance := last_pos - 150 in
    let d1 := total_distance / 4.75 in
    Ok [150; 150 + d1; 150 + d1 + 1.5 * d1; last_pos]
  else Ok [].

(** [main_window] is [None] when the tab has no parent window; [count] is
    [hinge_count_spin.value()].  A count above 4 leaves the [if] chain and
    reaches the final [return []], as a caught exception does. *)
Definition _calculate_hinge_positions
    (main_window : option (gmap string value)) (count : Z) : list Q :=
  match main_window with
  | None => []
  | Some st =>
      match hinge_positions_body (get_dollar_variable st "frame_height") count with
      | Ok l => l
      | Raise _ => []
      end
  end.

(** ** The PM placement solver *)

(** An obstacle zone or a valid range: the tuple [(start, end)]. *)
Definition interval : Type := Q * Q.

(** [_fallback_pm_positions]: the list of minimum distances and the loop that
    accumulates them.  The first [current_pos += min_dist] raises [TypeError]
    when [pm1_pos] is not a number, so the number is taken first. *)
Definition min_distances : list Q :=
  [min_pm1_to_pm2; min_pm2_to_pm3; min_pm3_to_pm4].

Definition fallback_loop (pm1_pos : Q) : list Q * Q :=
  fold_left
    (fun (acc : list Q * Q) (min_dist : Q) =>
       let current_pos := snd acc + min_dist in
       (fst acc ++ [current_pos], current_pos))
    min_distances ([pm1_pos], pm1_pos).

Definition _fallback_pm_positions (pm1_pos : value) : result (list Q) :=
  p <- num pm1_pos ;; Ok (fst (fallback_loop p)).

(** [sorted(obstacles, key=lambda x: x[0])]: a stable sort on the start. *)
Fixpoint insert_by_start (o : interval) (l : list interval) : list interval :=
  match l with
  | [] => [o]
  | o' :: l' =>
      if Qle_bool (fst o) (fst o') then o :: l else o' :: insert_by_start o l'
  end.

Definition sorted_by_start (obstacles : list interval) : list interval :=
  fold_right insert_by_start [] obstacles.

(** The loop of [_calculate_valid_ranges] over the sorted obstacles, followed
    by the final range.  The ranges the loop appends in turn are the ones the
    recursion puts in front of the ranges of the remaining obstacles. *)
Fixpoint valid_ranges_loop (range_start range_end : Q)
    (obstacles : list interval) (current_start : Q) : list interval :=
  match obstacles with
  | [] =>
      if Qlt_bool current_start range_end
      then [(current_start, range_end)] else []
  | o :: rest =>
      let obstacle_start := py_max (fst o) range_start in
      let obstacle_end := py_min (snd o) range_end in
      if Qlt_bool obstacle_start range_end && Qlt_bool range_start obstacle_end
      then
        let next := py_max current_start obstacle_end in
        if Qlt_bool current_start obstacle_start
        then (current_start, obstacle_start)
               :: valid_ranges_loop range_start range_end rest next
        else valid_ranges_loop range_start range_end rest next
      else valid_ranges_loop range_start range_end rest current_start
  end.

Definition _calculate_valid_ranges (range_start range_end : Q)
    (obstacles : list interval) : list interval :=
  valid_ranges_loop range_start range_end (sorted_by_start obstacles) range_start.

(** Step 4 of the caller: [end - start >= min_size]. *)
Definition large_enough (r : interval) : bool :=
  Qle_bool PM_CONFIG.min_range_size (snd r - fst r).

Definition _position_in_valid_ranges (position : Q)
    (valid_ranges : list interval) : bool :=
  existsb (fun r => Qle_bool (fst r) position && Qle_bool position (snd r))
          valid_ranges.

Definition _optimize_pm2_pm3_positions (pm1_pos pm4_pos : Q)
    (valid_ranges : list interval) : Q * Q :=
  let pm2_pos := pm1_pos + min_pm1_to_pm2 in
  let pm3_pos := pm4_pos - min_pm3_to_pm4 in
  if Qlt_bool (pm3_pos - pm2_pos) min_pm2_to_pm3 then
    let pm2_pos := pm1_pos + min_pm1_to_pm2 in
    let pm3_pos := pm2_pos + min_pm2_to_pm3 in
    (pm2_pos, pm3_pos)
  else
    let best_pm2 :=
      if negb (_position_in_valid_ranges pm2_pos valid_ranges) then
        match find (fun r => Qle_bool (pm1_pos + min_pm1_to_pm2) (fst r))
                   valid_ranges with
        | Some r => fst r
        | None => pm2_pos
        end
      else pm2_pos in
    let best_pm3 :=
      if negb (_position_in_valid_ranges pm3_pos valid_ranges) then
        match find (fun r => Qle_bool (snd r) (pm4_pos - min_pm3_to_pm4))
                   (rev valid_ranges) with
        | Some r => snd r
        | None => pm3_pos
        end
      else pm3_pos in
    if Qlt_bool (best_pm3 - best_pm2) min_pm2_to_pm3 then
      let mid_point := (best_pm2 + best_pm3) / 2 in
      let best_pm2 := mid_point - min_pm2_to_pm3 / 2 in
      let best_pm3 := mid_point + min_pm2_to_pm3 / 2 in
      let best_pm2 :=
        if negb (_position_in_valid_ranges best_pm2 valid_ranges)
        then pm1_pos + min_pm1_to_pm2 else best_pm2 in
      let best_pm3 :=
        if negb (_position_in_valid_ranges best_pm3 valid_ranges)
        then best_pm2 + min_pm2_to_pm3 else best_pm3 in
      (best_pm2, best_pm3)
    else (best_pm2, best_pm3).

(** The test both [_calculate_pm_positions] and [run_validation] apply to the
    lock and to each hinge: the position counts when the component is active
    and [pos and pos > 0]. *)
Definition active_position (st : gmap string value) (active position : string)
    : result (list Q) :=
  if truthy (get_dollar_variable st active) then
    let pos := get_dollar_variable st position in
    if truthy pos then
      above <- py_gt pos 0 ;;
      if above then p <- num pos ;; Ok [p] else Ok []
    else Ok []
  else Ok [].

(** Step 2 of [_calculate_pm_positions]: the zone of an active lock or hinge,
    [(pos - safety, pos + safety)]. *)
Definition zone (safety : Q) (pos : Q) : interval := (pos - safety, pos + safety).

Definition obstacle_of (st : gmap string value) (active position : string)
    (safety : Q) : result (list interval) :=
  ps <- active_position st active position ;; Ok (map (zone safety) ps).

(** The names [f"hinge{i+1}_active"] and [f"hinge{i+1}_position"] for [i] in
    [range(4)]. *)
Definition hinge_name (i : nat) (suffix : string) : string :=
  "hinge" ++ String (Ascii.ascii_of_nat (49 + i)) suffix.

Fixpoint hinge_obstacles (st : gmap string value) (indices : list nat)
    : result (list interval) :=
  match indices with
  | [] => Ok []
  | i :: rest =>
      z <- obstacle_of st (hinge_name i "_active") (hinge_name i "_position")
             PM_CONFIG.hinge_safety_distance ;;
      zs <- hinge_obstacles st rest ;;
      Ok (z ++ zs)
  end.

Definition pm_obstacles (st : gmap string value) : result (list interval) :=
  lock <- obstacle_of st "lock_active" "lock_position"
            PM_CONFIG.lock_safety_distance ;;
  hinges <- hinge_obstacles st (seq 0 4) ;;
  Ok (lock ++ hinges).

(** [pm1_pos if pm1_pos is not None else -25]; also the effect of
    [if pm1_pos is None: pm1_pos = -25]. *)
Definition pm1_anchor (pm1_pos : value) : value :=
  match pm1_pos with
  | VNone => VNum (-25)
  | _ => pm1_pos
  end.

(** The body of the [try] block of [_calculate_pm_positions], after the two
    variables have been read. *)
Definition pm_positions_body (st : gmap string value)
    (frame_height pm1_pos : value) : result (list Q) :=
  if negb (truthy frame_height) then Ok [] else
  nonpos <- py_le frame_height 0 ;;
  if nonpos then Ok [] else
  let pm1_pos := pm1_anchor pm1_pos in
  range_start <- py_add pm1_pos min_pm1_to_pm2 ;;
  range_end <- py_sub frame_height pm4_half_height ;;
  if Qle_bool range_end range_start then _fallback_pm_positions pm1_pos else
  obstacles <- pm_obstacles st ;;
  let valid_ranges := _calculate_valid_ranges range_start range_end obstacles in
  let valid_ranges := List.filter large_enough valid_ranges in
  match last valid_ranges with
  | None => _fallback_pm_positions pm1_pos
  | Some last_range =>
      let pm4_pos := snd last_range in
      (* [pm1_pos] is a number here: [range_start] was computed from it *)
      p1 <- num pm1_pos ;;
      let '(pm2_pos, pm3_pos) :=
        _optimize_pm2_pm3_positions p1 pm4_pos valid_ranges in
      Ok [p1; pm2_pos; pm3_pos; pm4_pos]
  end.

(** [_calculate_pm_positions]: [TypeError] and [ValueError] raised by the body
    are caught, and the function then returns the fallback for
    [pm1_pos if pm1_pos is not None else -25]. *)
Definition _calculate_pm_positions
    (main_window : option (gmap string value)) : result (list Q) :=
  match main_window with
  | None => Ok []
  | Some st =>
      let frame_height := get_dollar_variable st "frame_height" in
      let pm1_pos := get_dollar_variable st "pm1_position" in
      match pm_positions_body st frame_height pm1_pos with
      | Ok positions => Ok positions
      | Raise _ => _fallback_pm_positions (pm1_anchor pm1_pos)
      end
  end.

(** ** Validation *)

(** The name [f"pm{i+1}_position"]. *)
Definition pm_name (i : nat) : string :=
  "pm" ++ String (Ascii.ascii_of_nat (49 + i)) "_position".

Fixpoint nums (vs : list value) : result (list Q) :=
  match vs with
  | [] => Ok []
  | v :: rest => q <- num v ;; qs <- nums rest ;; Ok (q :: qs)
  end.

Definition distance_checks : list (nat * nat * Q) :=
  [(0%nat, 1%nat, min_pm1_to_pm2);
   (1%nat, 2%nat, min_pm2_to_pm3);
   (2%nat, 3%nat, min_pm3_to_pm4)].

Definition check_distances (pm_positions : list Q) (errors : list bool)
    : list bool :=
  fold_left
    (fun (errors : list bool) (c : nat * nat * Q) =>
       let '(i, j, min_dist) := c in
       if Qlt_bool (nth j pm_positions 0 - nth i pm_positions 0) min_dist
       then <[j := true]> (<[i := true]> errors)
       else errors)
    distance_checks errors.

Fixpoint hinge_positions (st : gmap string value) (indices : list nat)
    : result (list Q) :=
  match indices with
  | [] => Ok []
  | i :: rest =>
      p <- active_position st (hinge_name i "_active") (hinge_name i "_position") ;;
      ps <- hinge_positions st rest ;;
      Ok (p ++ ps)
  end.

Definition validation_obstacles (st : gmap string value) : result (list Q) :=
  lock <- active_position st "lock_active" "lock_position" ;;
  hinges <- hinge_positions st (seq 0 4) ;;
  Ok (lock ++ hinges).

Definition safety_distance : Q :=
  py_max PM_CONFIG.lock_safety_distance PM_CONFIG.hinge_safety_distance.

Definition check_obstacles (pm_positions obstacles : list Q)
    (errors : list bool) : list bool :=
  fold_left
    (fun (errors : list bool) (ip : nat * Q) =>
       fold_left
         (fun (errors : list bool) (obstacle_pos : Q) =>
            if Qlt_bool (Qabs (snd ip - obstacle_pos)) safety_distance
            then <[fst ip := true]> errors
            else errors)
         obstacles errors)
    (combine (seq 0 (length pm_positions)) pm_positions) errors.

Definition check_height (frame_height : Q) (pm_positions : list Q)
    (errors : list bool) : list bool :=
  if Qlt_bool 0 frame_height then
    let pm4_height_limit := frame_height - pm4_half_height in
    if Qlt_bool pm4_height_limit (nth 3 pm_positions 0)
    then <[3%nat := true]> errors
    else errors
  else errors.

(** [run_validation] of a tab with a main window, up to the error vector it
    hands to the PM inputs' [set_error]; the subtraction and comparisons raise
    [TypeError] on a position or height that is not a number. *)
Definition run_validation (st : gmap string value) : result (list bool) :=
  pm_positions <-
    nums (map (fun i => py_or0 (get_dollar_variable st (pm_name i))) (seq 0 4)) ;;
  let frame_height := py_or0 (get_dollar_variable st "frame_height") in
  let errors := [false; false; false; false] in
  let errors := check_distances pm_positions errors in
  obstacles <- validation_obstacles st ;;
  let errors := check_obstacles pm_positions obstacles errors in
  h <- num frame_height ;;
  Ok (check_height h pm_positions errors).

(** * Notions used by the statements *)

(** Equality of position lists, element by element up to [==]. *)
Definition positions_eq (l1 l2 : list Q) : Prop := Forall2 Qeq l1 l2.

(** The values a line edit of the tab stores: a number, or nothing yet. *)
Definition numeric_or_unset (v : value) : Prop :=
  match v with
  | VStr _ => False
  | _ => True
  end.


(** The variables whose value [run_validation] subtracts or compares. *)
Definition validation_inputs : list string :=
  ["pm1_position"; "pm2_position"; "pm3_position"; "pm4_position";
   "frame_height"; "lock_position";
   "hinge1_position"; "hinge2_position"; "hinge3_position"; "hinge4_position"].

(** [on_grid d q]: [d * q] is an integer, that is [q] is a multiple of
    [1 / d]. *)
Definition on_grid (d q : Q) : Prop := exists n : Z, d * q == inject_Z n.

(** Numbers on which the floating-point arithmetic of the solver and of the
    validation is exact: multiples of 1/1024 of absolute value up to a
    million.  A sum, difference or halving of two of them is a multiple of
    1/2048 below 2^21, which a binary64 float holds without rounding. *)
Definition exact_input (q : Q) : Prop :=
  on_grid 1024 q /\ Qabs q <= 1000000.

(** What the solver makes of such inputs. *)
Definition exact_result (q : Q) : Prop :=
  on_grid 2048 q /\ Qabs q <= 1001000.

(** The first distance in the source's own arithmetic, binary64:
    [pm2_pos = pm1_pos + min_pm1_to_pm2] of [_optimize_pm2_pm3_positions] and
    the test [pm_positions[1] - pm_positions[0] < min_dist] of
    [run_validation]. *)
Definition binary64_pm2 (pm1_pos : float) : float :=
  (pm1_pos + (265 / 2 + 140 / 2))%float.

Definition binary64_flagged (pm1_pos pm2_pos : float) : bool :=
  (pm2_pos - pm1_pos <? 265 / 2 + 140 / 2)%float.

(** The variables whose numeric value enters the arithmetic of the solver. *)
Definition solver_inputs : list string :=
  ["frame_height"; "pm1_position"; "lock_position"]
    ++ map (fun i => hinge_name i "_position") (seq 0 4).

Definition exact_inputs (st : gmap string value) : Prop :=
  forall name q,
    In name solver_inputs ->
    get_dollar_variable st name = VNum q ->
    exact_input q.

(** The valid ranges the solver works with after steps 3 and 4, for a numeric
    PM1 anchor and frame height. *)
Definition solver_ranges (pm1 frame_height : Q) (obstacles : list interval)
    : list interval :=
  List.filter large_enough
    (_calculate_valid_ranges (pm1 + min_pm1_to_pm2)
       (frame_height - pm4_half_height) obstacles).

(** The condition under which the solver calls the fallback in step 4
    ([if not valid_ranges]): no valid range of the minimum size is left. *)
Definition no_valid_range (pm1 frame_height : Q) (obstacles : list interval)
    : Prop :=
  solver_ranges pm1 frame_height obstacles = [].


(** [last_pos] for a numeric frame height. *)
Definition last_hinge (h : Q) : Q := if Qle_bool 2000 h then 1800 else h - 200.

(** Obstacles in the order of their starts. *)
Definition by_start (o1 o2 : interval) : Prop := fst o1 <= fst o2.

(** A range lies in the span, after the current start, and is not empty. *)
Definition range_within (range_end current_start : Q) (r : interval) : Prop :=
  current_start <= fst r /\ fst r < snd r /\ snd r <= range_end.

(** Two ranges are at least [w] apart, [w] being a width every obstacle has. *)
Definition apart (w : Q) (r1 r2 : interval) : Prop := snd r1 + w <= fst r2.

(** The two snapping steps and the final adjustment of
    [_optimize_pm2_pm3_positions], named for the proofs. *)
Definition snapped_pm2 (pm1_pos : Q) (valid_ranges : list interval) : Q :=
  let pm2_pos := pm1_pos + min_pm1_to_pm2 in
  if negb (_position_in_valid_ranges pm2_pos valid_ranges) then
    match find (fun r => Qle_bool (pm1_pos + min_pm1_to_pm2) (fst r))
               valid_ranges with
    | Some r => fst r
    | None => pm2_pos
    end
  else pm2_pos.

Definition snapped_pm3 (pm4_pos : Q) (valid_ranges : list interval) : Q :=
  let pm3_pos := pm4_pos - min_pm3_to_pm4 in
  if negb (_position_in_valid_ranges pm3_pos valid_ranges) then
    match find (fun r => Qle_bool (snd r) (pm4_pos - min_pm3_to_pm4))
               (rev valid_ranges) with
    | Some r => snd r
    | None => pm3_pos
    end
  else pm3_pos.

Definition kept_apart (pm1_pos best_pm2 best_pm3 : Q)
    (valid_ranges : list interval) : Q * Q :=
  if Qlt_bool (best_pm3 - best_pm2) min_pm2_to_pm3 then
    let mid_point := (best_pm2 + best_pm3) / 2 in
    let best_pm2 := mid_point - min_pm2_to_pm3 / 2 in
    let best_pm3 := mid_point + min_pm2_to_pm3 / 2 in
    let best_pm2 :=
      if negb (_position_in_valid_ranges best_pm2 valid_ranges)
      then pm1_pos + min_pm1_to_pm2 else best_pm2 in
    let best_pm3 :=
      if negb (_position_in_valid_ranges best_pm3 valid_ranges)
      then best_pm2 + min_pm2_to_pm3 else best_pm3 in
    (best_pm2, best_pm3)
  else (best_pm2, best_pm3).

(** ** Sample stores *)

(** The store of a frame of height 2100 with PM1 at -25 and neither lock nor
    hinge active. *)
Definition st_plain : gmap string value :=
  {[ "frame_height" := VNum 2100; "pm1_position" := VNum (-25) ]}.

(** A frame of the minimum height with PM1 at -25 and neither lock nor hinge
    active. *)
Definition st_min_plain : gmap string value :=
  {[ "frame_height" := VNum 840; "pm1_position" := VNum (-25) ]}.

(** The same frame with the lock at its automatic position 1050 and the three
    hinges at their automatic positions for this height, all active. *)
Definition st_min_auto : gmap string value :=
  {[ "frame_height" := VNum 840; "pm1_position" := VNum (-25);
     "lock_active" := VNum 1; "lock_position" := VNum 1050;
     "hinge1_active" := VNum 1; "hinge1_position" := VNum 150;
     "hinge2_active" := VNum 1; "hinge2_position" := VNum 346;
     "hinge3_active" := VNum 1; "hinge3_position" := VNum 640;
     "hinge4_active" := VNum 0; "hinge4_position" := VNum 0 ]}.

(** A frame of the minimum height with PM1 at -25 and an active lock at
    450. *)
Definition st_lock_low : gmap string value :=
  {[ "frame_height" := VNum 840; "pm1_position" := VNum (-25);
     "lock_active" := VNum 1; "lock_position" := VNum 450 ]}.

(** The frame of [st_plain] with a text in the PM1 variable. *)
Definition st_text_anchor : gmap string value :=
  <["pm1_position" := VStr "abc"]> st_plain.

(** A store with the four PMs far apart, no active obstacle and a frame
    height of zero. *)
Definition st_zero_height : gmap string value :=
  {[ "frame_height" := VNum 0;
     "pm1_position" := VNum 0; "pm2_position" := VNum 300;
     "pm3_position" := VNum 600; "pm4_position" := VNum 1000 ]}.

(** * More of the frame tab *)

(** ** Automatic lock and hinge offsets *)

(** [v is None] *)
Definition is_none (v : value) : bool :=
  match v with
  | VNone => true
  | _ => false
  end.

(** [v == 0]: a text or [None] is not equal to zero. *)
Definition py_eq0 (v : value) : bool :=
  match v with
  | VNum q => Qeq_bool q 0
  | _ => false
  end.

Definition py_div (v : value) (q : Q) : result Q := x <- num v ;; Ok (x / q).
Definition py_lt (v : value) (q : Q) : result bool := x <- num v ;; Ok (Qlt_bool x q).

Definition _calculate_lock_position : Q := 1050.

(** The body of the [try] block of [_calculate_lock_y_offset]; [Ok None] is
    the fall through to the final [return None]. *)
Definition lock_y_offset_body (st : gmap string value) : result (option Q) :=
  let frame_width := get_dollar_variable st "frame_width" in
  let door_width := get_dollar_variable st "door_width" in
  if negb (is_none frame_width) && negb (is_none door_width) then
    narrow <- py_le door_width 45 ;;
    if narrow then
      half <- py_div door_width 2 ;;
      offset <- py_sub frame_width half ;;
      Ok (Some offset)
    else
      offset <- py_sub frame_width (45 / 2) ;;
      Ok (Some offset)
  else Ok None.

Definition _calculate_lock_y_offset
    (main_window : option (gmap string value)) : option Q :=
  match main_window with
  | None => None
  | Some st =>
      match lock_y_offset_body st with
      | Ok offset => offset
      | Raise _ => None
      end
  end.

(** [_calculate_hinge_y_offset] repeats the code of the lock offset. *)
Definition hinge_y_offset_body (st : gmap string value) : result (option Q) :=
  let frame_width := get_dollar_variable st "frame_width" in
  let door_width := get_dollar_variable st "door_width" in
  if negb (is_none frame_width) && negb (is_none door_width) then
    narrow <- py_le door_width 45 ;;
    if narrow then
      half <- py_div door_width 2 ;;
      offset <- py_sub frame_width half ;;
      Ok (Some offset)
    else
      offset <- py_sub frame_width (45 / 2) ;;
      Ok (Some offset)
  else Ok None.

Definition _calculate_hinge_y_offset
    (main_window : option (gmap string value)) : option Q :=
  match main_window with
  | None => None
  | Some st =>
      match hinge_y_offset_body st with
      | Ok offset => offset
      | Raise _ => None
      end
  end.

(** ** Writing dollar variables *)

(** Modelled from the spec: [MainWindow.update_dollar_variable] and
    [MainWindow.update_dollar_variables] (ui/main_window.py is not part of the
    sources).  A dollar variable is "a named configuration value": an update
    gives the name its new value, and a batch of changes does so for each
    name in turn. *)
Definition update_dollar_variable (st : gmap string value) (name : string)
    (v : value) : gmap string value :=
  <[name := v]> st.

Definition update_dollar_variables (st : gmap string value)
    (changes : list (string * value)) : gmap string value :=
  fold_left (fun st c => update_dollar_variable st (fst c) (snd c)) changes st.

(** ** Height limits *)

(** The body of the [try] block of [enforce_height_limits]: the store after
    it. *)
Definition enforce_height_body (st : gmap string value)
    : result (gmap string value) :=
  let current_height := py_or0 (get_dollar_variable st "frame_height") in
  low <- py_lt current_height MIN_FRAME_HEIGHT ;;
  if low then
    Ok (update_dollar_variable st "frame_height" (VNum MIN_FRAME_HEIGHT))
  else
    high <- py_gt current_height MAX_FRAME_HEIGHT ;;
    if high then
      Ok (update_dollar_variable st "frame_height" (VNum MAX_FRAME_HEIGHT))
    else Ok st.

(** [enforce_height_limits]: the store of the main window after the call. *)
Definition enforce_height_limits
    (main_window : option (gmap string value)) : option (gmap string value) :=
  match main_window with
  | None => None
  | Some st =>
      Some match enforce_height_body st with
           | Ok st' => st'
           | Raise _ =>
               update_dollar_variable st "frame_height" (VNum MIN_FRAME_HEIGHT)
           end
  end.

(** ** Hinge count *)

(** The changes [update_hinge_count] collects: hinges below the count whose
    active flag is [None] or 0 become active, hinges from the count up to 4
    are deactivated and their position is cleared. *)
Definition new_hinge_changes (st : gmap string value) (indices : list nat)
    : list (string * value) :=
  flat_map
    (fun i =>
       let current_active := get_dollar_variable st (hinge_name i "_active") in
       if is_none current_active || py_eq0 current_active
       then [(hinge_name i "_active", VNum 1)]
       else [])
    indices.

Definition unused_hinge_changes (indices : list nat) : list (string * value) :=
  flat_map
    (fun i => [(hinge_name i "_active", VNum 0);
               (hinge_name i "_position", VNum 0)])
    indices.

Definition hinge_count_changes (st : gmap string value) (count : nat)
    : list (string * value) :=
  new_hinge_changes st (seq 0 count) ++ unused_hinge_changes (seq count (4 - count)).

(** ** Execution order *)

(** [order_map[item_id] = idx + 1] for [idx, item_id] in [enumerate(order)]. *)
Fixpoint order_map_from (idx : nat) (order : list string)
    (order_map : gmap string nat) : gmap string nat :=
  match order with
  | [] => order_map
  | item_id :: rest =>
      order_map_from (S idx) rest (<[item_id := S idx]> order_map)
  end.

(** [order_map.get(item_id, 0)] *)
Definition order_rank (order : list string) (item_id : string) : nat :=
  default 0%nat (order_map_from 0 order ∅ !! item_id).

Definition order_value (n : nat) : value := VNum (inject_Z (Z.of_nat n)).

(** The changes [on_order_changed] applies for the order the order widget
    reports. *)
Definition order_changes (order : list string) : list (string * value) :=
  ("lock_order", order_value (order_rank order "lock"))
    :: map (fun i => (hinge_name i "_order",
                      order_value (order_rank order (hinge_name i ""))))
           (seq 0 4).

(** ** The automatic calculations *)

(** The state of the tab the automatic calculations read: the store of the
    main window, the recursion flag, the five "auto" check boxes and the
    hinge count spin box. *)
Record tab : Type := {
  tab_store : option (gmap string value);
  _auto_calculation_running : bool;
  lock_auto_check : bool;
  lock_y_auto_check : bool;
  hinge_auto_check : bool;
  hinge_y_auto_check : bool;
  pm_auto_check : bool;
  hinge_count_spin : Z
}.

Definition with_store (t : tab) (st : option (gmap string value))
    (running : bool) : tab :=
  {| tab_store := st;
     _auto_calculation_running := running;
     lock_auto_check := lock_auto_check t;
     lock_y_auto_check := lock_y_auto_check t;
     hinge_auto_check := hinge_auto_check t;
     hinge_y_auto_check := hinge_y_auto_check t;
     pm_auto_check := pm_auto_check t;
     hinge_count_spin := hinge_count_spin t |}.

(** [on_order_changed]: nothing happens without a main window or while the
    automatic calculations run. *)
Definition on_order_changed (t : tab) (order : list string) : tab :=
  match tab_store t with
  | Some st =>
      if _auto_calculation_running t then t
      else with_store t (Some (update_dollar_variables st (order_changes order)))
                      (_auto_calculation_running t)
  | None => t
  end.

Section AutoCalculation.

(** Python's [round(x, 1)], which the model of exact rationals leaves open. *)
Variable round1 : Q -> Q.

(** [changes[name(i)] = round(pos, 1)] for [i, pos] in
    [enumerate(positions)] with [i < 4]. *)
Definition position_changes (name : nat -> string) (positions : list Q)
    : list (string * value) :=
  flat_map
    (fun ip =>
       if (fst ip <? 4)%nat then [(name (fst ip), VNum (round1 (snd ip)))] else [])
    (combine (seq 0 (length positions)) positions).

Definition offset_changes (name : string) (offset : option Q)
    : list (string * value) :=
  match offset with
  | Some y => [(name, VNum (round1 y))]
  | None => []
  end.

(** The batch of changes of [run_auto_calculations], in the order the code
    collects them.  Only the PM calculation can raise. *)
Definition auto_changes (t : tab) : result (list (string * value)) :=
  let lock :=
    if lock_auto_check t
    then [("lock_position", VNum (round1 _calculate_lock_position))] else [] in
  let lock_y :=
    if lock_y_auto_check t
    then offset_changes "lock_y_offset" (_calculate_lock_y_offset (tab_store t))
    else [] in
  let hinges :=
    if hinge_auto_check t
    then position_changes (fun i => hinge_name i "_position")
           (_calculate_hinge_positions (tab_store t) (hinge_count_spin t))
    else [] in
  let hinge_y :=
    if hinge_y_auto_check t
    then offset_changes "hinge_y_offset" (_calculate_hinge_y_offset (tab_store t))
    else [] in
  pms <-
    (if pm_auto_check t
     then pm_positions <- _calculate_pm_positions (tab_store t) ;;
          Ok (position_changes pm_name pm_positions)
     else Ok []) ;;
  Ok (lock ++ lock_y ++ hinges ++ hinge_y ++ pms).

(** [run_auto_calculations]: the tab after the call and the exception that
    leaves it, if any.  The [finally] clause clears the flag on both ways
    out; the changes are applied in one batch when there are any. *)
Definition run_auto_calculations (t : tab) : tab * option exn :=
  if _auto_calculation_running t then (t, None)
  else
    match auto_changes t with
    | Ok changes =>
        let st' :=
          match changes, tab_store t with
          | _ :: _, Some st => Some (update_dollar_variables st changes)
          | _, st => st
          end in
        (with_store t st' false, None)
    | Raise e => (with_store t (tab_store t) false, Some e)
    end.

(** [update_hinge_count]: the batch of hinge changes is applied when there
    is a main window, and the function ends with [run_auto_calculations].
    [count] is the value the spin box reports, between 0 and 4.  The hinge
    widgets the function rebuilds, [update_enabled_states] (it enables and
    disables inputs) and [update_order_widget] (it hands the active flags to
    the order widget, which is not among the sources) are left out. *)
Definition update_hinge_count (t : tab) (count : nat) : tab * option exn :=
  let st' :=
    match tab_store t with
    | Some st => Some (update_dollar_variables st (hinge_count_changes st count))
    | None => None
    end in
  run_auto_calculations (with_store t st' (_auto_calculation_running t)).

End AutoCalculation.

(** The variables the automatic calculations may write. *)
Definition auto_outputs : list string :=
  ["lock_position"; "lock_y_offset";
   "hinge1_position"; "hinge2_position"; "hinge3_position"; "hinge4_position";
   "hinge_y_offset";
   "pm1_position"; "pm2_position"; "pm3_position"; "pm4_position"].

(** The variables [on_order_changed] writes. *)
Definition order_outputs : list string :=
  "lock_order" :: map (fun i => hinge_name i "_order") (seq 0 4).

(** The outputs of the "auto" boxes that are checked. *)
Definition enabled_outputs (t : tab) : list string :=
  (if lock_auto_check t then ["lock_position"] else []) ++
  (if lock_y_auto_check t then ["lock_y_offset"] else []) ++
  (if hinge_auto_check t
   then map (fun i => hinge_name i "_position") (seq 0 4) else []) ++
  (if hinge_y_auto_check t then ["hinge_y_offset"] else []) ++
  (if pm_auto_check t then map pm_name (seq 0 4) else []).

(** ** Notions used by the further statements *)

(** A tab over the store [st_min_auto] with the lock, hinge and PM boxes
    checked and two hinges. *)
Definition tab_min_auto : tab :=
  {| tab_store := Some st_min_auto;
     _auto_calculation_running := false;
     lock_auto_check := true;
     lock_y_auto_check := false;
     hinge_auto_check := true;
     hinge_y_auto_check := false;
     pm_auto_check := true;
     hinge_count_spin := 2 |}.

(** The frame of [st_plain] with an active lock at 1050, and a tab over it
    with only the PM box checked. *)
Definition st_lock_plain : gmap string value :=
  <["lock_active" := VNum 1]> (<["lock_position" := VNum 1050]> st_plain).

Definition tab_lock_plain : tab :=
  {| tab_store := Some st_lock_plain;
     _auto_calculation_running := false;
     lock_auto_check := false;
     lock_y_auto_check := false;
     hinge_auto_check := false;
     hinge_y_auto_check := false;
     pm_auto_check := true;
     hinge_count_spin := 0 |}.

(** The flag and the position variable of the lock and of each hinge, as the
    solver and the validation read them. *)
Definition obstacle_names : list (string * string) :=
  ("lock_active", "lock_position")
    :: map (fun i => (hinge_name i "_active", hinge_name i "_position"))
           (seq 0 4).

(** The frame of [st_plain] with an active lock whose position is a text. *)
Definition st_text_lock : gmap string value :=
  <["lock_active" := VNum 1]> (<["lock_position" := VStr "abc"]> st_plain).

(** A position is not strictly inside a zone. *)
Definition clear_of (z : interval) (p : Q) : Prop := ~ (fst z < p < snd z).

(** A PM position is closer than the safety distance to an obstacle. *)
Definition near_obstacle (p : Q) (obstacles : list Q) : Prop :=
  exists o, In o obstacles /\ Qabs (p - o) < 170.

(** The outcome of the inner loop of the obstacle check for one PM: some
    obstacle is closer than the safety distance. *)
Definition near_b (p : Q) (obstacles : list Q) : bool :=
  existsb (fun o => Qlt_bool (Qabs (p - o)) safety_distance) obstacles.


(** A point lies strictly inside one of the ranges. *)
Definition inside_ranges (ranges : list interval) (x : Q) : Prop :=
  exists r, In r ranges /\ fst r < x < snd r.

(** * Properties *)

(** ** Comparisons and constants *)

Lemma Qle_bool_case (x y : Q) :
  (Qle_bool x y = true /\ x <= y) \/ (Qle_bool x y = false /\ y < x).
Proof.
  destruct (Qle_bool x y) eqn:E.
  - left. split; [reflexivity | now apply Qle_bool_iff].
  - right. split; [reflexivity |].
    apply Qnot_le_lt. intros H. apply Qle_bool_iff in H. congruence.
Qed.

Lemma Qlt_bool_case (x y : Q) :
  (Qlt_bool x y = true /\ x < y) \/ (Qlt_bool x y = false /\ y <= x).
Proof.
  unfold Qlt_bool.
  destruct (Qle_bool_case y x) as [[-> H] | [-> H]]; simpl; auto.
Qed.

Lemma Qeq_bool_case (x y : Q) :
  (Qeq_bool x y = true /\ x == y) \/ (Qeq_bool x y = false /\ ~ x == y).
Proof.
  destruct (Qeq_bool x y) eqn:E.
  - left. split; [reflexivity | now apply Qeq_bool_iff].
  - right. split; [reflexivity |].
    intros H. apply Qeq_bool_iff in H. congruence.
Qed.

Lemma min_pm1_to_pm2_value : min_pm1_to_pm2 == 202.5.
Proof. reflexivity. Qed.

Lemma min_pm2_to_pm3_value : min_pm2_to_pm3 == 157.5.
Proof. reflexivity. Qed.

Lemma min_pm3_to_pm4_value : min_pm3_to_pm4 == 207.5.
Proof. reflexivity. Qed.

Lemma pm4_half_height_value : pm4_half_height == 60.
Proof. reflexivity. Qed.

(** Brings the four constants into the context for [lra]. *)
Ltac pm_constants :=
  pose proof min_pm1_to_pm2_value;
  pose proof min_pm2_to_pm3_value;
  pose proof min_pm3_to_pm4_value;
  pose proof pm4_half_height_value.

(** Division by a numeral, in a form [lra] accepts. *)
Ltac qdiv :=
  unfold Qdiv in *;
  repeat match goal with
  | |- context [Qinv (Qmake ?n ?d)] =>
      let v := eval vm_compute in (Qinv (Qmake n d)) in
      change (Qinv (Qmake n d)) with v
  | H : context [Qinv (Qmake ?n ?d)] |- _ =>
      let v := eval vm_compute in (Qinv (Qmake n d)) in
      change (Qinv (Qmake n d)) with v in H
  end.

(** Case analysis on the first boolean comparison of the goal. *)
Ltac qcase :=
  match goal with
  | |- context [Qle_bool ?x ?y] =>
      let H := fresh "Hc" in
      destruct (Qle_bool_case x y) as [[-> H] | [-> H]]
  | |- context [Qlt_bool ?x ?y] =>
      let H := fresh "Hc" in
      destruct (Qlt_bool_case x y) as [[-> H] | [-> H]]
  | |- context [Qeq_bool ?x ?y] =>
      let H := fresh "Hc" in
      destruct (Qeq_bool_case x y) as [[-> H] | [-> H]]
  end.

Lemma fallback_value (p : Q) :
  exists l, _fallback_pm_positions (VNum p) = Ok l /\
            positions_eq l [p; p + 202.5; p + 360; p + 567.5].
Proof.
  eexists. split; [reflexivity |].
  unfold positions_eq, fallback_loop, min_distances. simpl.
  pm_constants. repeat constructor; lra.
Qed.

(** ** Hinge positions *)

Lemma hinge_last_pos_num (h : Q) : hinge_last_pos (VNum h) = Ok (last_hinge h).
Proof.
  unfold hinge_last_pos, last_hinge. simpl. now destruct (Qle_bool 2000 h).
Qed.

Lemma truthy_positive (h : Q) : 0 < h -> truthy (VNum h) = true.
Proof.
  intros Hh. simpl. destruct (Qeq_bool_case h 0) as [[-> Hc] | [-> Hc]]; [lra | reflexivity].
Qed.

Lemma Qle_bool_positive (h : Q) : 0 < h -> Qle_bool h 0 = false.
Proof.
  intros Hh. destruct (Qle_bool_case h 0) as [[-> Hc] | [-> Hc]]; [lra | reflexivity].
Qed.

(** What the routine returns for a positive frame height. *)
Lemma hinge_positions_positive (st : gmap string value) (h : Q) (count : Z) :
  get_dollar_variable st "frame_height" = VNum h ->
  0 < h ->
  _calculate_hinge_positions (Some st) count =
    if (count <=? 0)%Z then []
    else if (count =? 1)%Z then [h / 2]
    else if (count =? 2)%Z then [150; last_hinge h]
    else if (count =? 3)%Z then
      [150; 150 + (last_hinge h - 150) / 2.5; last_hinge h]
    else if (count =? 4)%Z then
      [150; 150 + (last_hinge h - 150) / 4.75;
       150 + (last_hinge h - 150) / 4.75 + 1.5 * ((last_hinge h - 150) / 4.75);
       last_hinge h]
    else [].
Proof.
  intros Hfh Hh.
  unfold _calculate_hinge_positions, hinge_positions_body.
  rewrite Hfh, truthy_positive by assumption.
  rewrite hinge_last_pos_num. simpl.
  rewrite Qle_bool_positive by assumption. simpl.
  repeat match goal with |- context [if ?b then _ else _] => destruct b end;
    reflexivity.
Qed.

Lemma last_hinge_bounds (h : Q) :
  840 <= h -> 640 <= last_hinge h /\ last_hinge h <= h.
Proof.
  intros Hh. unfold last_hinge.
  destruct (Qle_bool_case 2000 h) as [[-> Hc] | [-> Hc]]; lra.
Qed.

(** C5.  For a frame height between 840 and 2500 and a hinge count between 1
    and 4 the routine returns as many positions as hinges, each position
    below the next one, and all of them between 0 and the frame height. *)
Theorem hinge_positions_increasing_in_frame
    (st : gmap string value) (h : Q) (count : Z) :
  get_dollar_variable st "frame_height" = VNum h ->
  MIN_FRAME_HEIGHT <= h <= MAX_FRAME_HEIGHT ->
  (1 <= count <= 4)%Z ->
  let positions := _calculate_hinge_positions (Some st) count in
  length positions = Z.to_nat count /\
  StronglySorted Qlt positions /\
  Forall (fun p => 0 <= p <= h) positions.
Proof.
  intros Hfh [Hmin Hmax] Hcount positions. subst positions.
  unfold MIN_FRAME_HEIGHT, MAX_FRAME_HEIGHT in *.
  rewrite (hinge_positions_positive st h) by (assumption || lra).
  destruct (last_hinge_bounds h Hmin) as [Hlo Hhi].
  assert (count = 1 \/ count = 2 \/ count = 3 \/ count = 4)%Z
    as [-> | [-> | [-> | ->]]] by lia; simpl;
    (split; [reflexivity | split]);
    repeat (constructor; try (qdiv; lra)).
Qed.

Lemma hinge_positions_increasing_in_frame_witness :
  let positions := _calculate_hinge_positions (Some st_plain) 3 in
  length positions = 3%nat /\
  StronglySorted Qlt positions /\
  Forall (fun p => 0 <= p <= 2100) positions.
Proof.
  apply (hinge_positions_increasing_in_frame st_plain 2100 3).
  - reflexivity.
  - unfold MIN_FRAME_HEIGHT, MAX_FRAME_HEIGHT. lra.
  - lia.
Defined.

(** C6 as the specification words it fails: at height 2100 the hinges are at
    150, 810 and 1800, and the segment from the first hinge to the middle one
    (660) is not 1.5 times the segment from the middle one to the last (990). *)
Lemma hinge_middle_ratio_counterexample :
  exists first middle last,
    _calculate_hinge_positions (Some st_plain) 3 = [first; middle; last] /\
    ~ middle - first == 1.5 * (last - middle).
Proof.
  do 3 eexists. split; [vm_compute; reflexivity |].
  intros H. vm_compute in H. discriminate H.
Qed.

(** C6, amended.  For three hinges and a positive frame height the segment
    from the middle hinge to the last one is 1.5 times the segment from the
    first hinge to the middle one. *)
Theorem hinge_middle_ratio (st : gmap string value) (h : Q) :
  get_dollar_variable st "frame_height" = VNum h ->
  0 < h ->
  exists first middle last,
    _calculate_hinge_positions (Some st) 3 = [first; middle; last] /\
    last - middle == 1.5 * (middle - first).
Proof.
  intros Hfh Hh. rewrite (hinge_positions_positive st h) by assumption. simpl.
  do 3 eexists. split; [reflexivity |]. qdiv. lra.
Qed.

Lemma hinge_middle_ratio_witness :
  exists first middle last,
    _calculate_hinge_positions (Some st_plain) 3 = [first; middle; last] /\
    last - middle == 1.5 * (middle - first).
Proof.
  apply (hinge_middle_ratio st_plain 2100); [reflexivity | lra].
Defined.

(** ** The solver on given frames *)

(** Unfolds the solver on a store whose frame height, PM1 anchor and obstacle
    list are given by hypotheses [Hfh], [Hpm1] and [Hobs]. *)
Ltac run_solver Hfh Hpm1 Hobs :=
  unfold _calculate_pm_positions, pm_positions_body;
  rewrite Hfh, Hpm1; cbn -[Qle_bool _calculate_valid_ranges pm_obstacles];
  rewrite ?Hobs.

(** C2.  With the PM1 anchor at -25, no active obstacle and a frame height of
    2100 the solver returns four positions, the first one -25, with
    PM2 - PM1 >= 202.5, PM3 - PM2 >= 157.5 and PM4 - PM3 >= 207.5. *)
Theorem pm_positions_plain_frame_clearances (st : gmap string value) :
  get_dollar_variable st "frame_height" = VNum 2100 ->
  pm1_anchor (get_dollar_variable st "pm1_position") = VNum (-25) ->
  pm_obstacles st = Ok [] ->
  exists pm1 pm2 pm3 pm4,
    _calculate_pm_positions (Some st) = Ok [pm1; pm2; pm3; pm4] /\
    pm1 == -25 /\
    202.5 <= pm2 - pm1 /\ 157.5 <= pm3 - pm2 /\ 207.5 <= pm4 - pm3.
Proof.
  intros Hfh Hpm1 Hobs. run_solver Hfh Hpm1 Hobs.
  vm_compute.
  do 4 eexists. split; [reflexivity |].
  repeat split; intros H; discriminate H.
Qed.

Lemma pm_positions_plain_frame_clearances_witness :
  exists pm1 pm2 pm3 pm4,
    _calculate_pm_positions (Some st_plain) = Ok [pm1; pm2; pm3; pm4] /\
    pm1 == -25 /\
    202.5 <= pm2 - pm1 /\ 157.5 <= pm3 - pm2 /\ 207.5 <= pm4 - pm3.
Proof.
  apply (pm_positions_plain_frame_clearances st_plain); reflexivity.
Defined.

Lemma st_min_auto_hinges :
  positions_eq (_calculate_hinge_positions (Some st_min_auto) 3) [150; 346; 640].
Proof. vm_compute. repeat constructor. Qed.

(** C4 as the specification words it fails: at height 840 with PM1 at -25 and
    no active obstacle the range from 177.5 to 780 is valid, the solver does
    not fall back and returns -25, 177.5, 572.5, 780. *)
Lemma pm_positions_min_frame_counterexample :
  pm_obstacles st_min_plain = Ok [] /\
  ~ no_valid_range (-25) 840 [] /\
  exists l,
    _calculate_pm_positions (Some st_min_plain) = Ok l /\
    positions_eq l [-25; 177.5; 572.5; 780] /\
    ~ positions_eq l [-25; 177.5; 335; 542.5].
Proof.
  split; [reflexivity |]. split; [intros H; vm_compute in H; discriminate H |].
  eexists. split; [vm_compute; reflexivity |]. split.
  - repeat constructor.
  - intros H. inversion H as [| ? ? ? ? _ H1]; subst.
    inversion H1 as [| ? ? ? ? _ H2]; subst.
    inversion H2 as [| ? ? ? ? H3 _]; subst.
    vm_compute in H3. discriminate H3.
Qed.

(** C4, amended.  At height 840 with the PM1 anchor at -25 the solver takes
    the fallback path and returns -25, 177.5, 335, 542.5 when the lock at 1050
    and the hinges at 150, 346 and 640 are active: their zones leave no valid
    range.  With no active obstacle it returns -25, 177.5, 572.5, 780. *)
Theorem pm_positions_min_frame (st : gmap string value) :
  get_dollar_variable st "frame_height" = VNum 840 ->
  pm1_anchor (get_dollar_variable st "pm1_position") = VNum (-25) ->
  (pm_obstacles st = Ok (map (zone 170) [1050; 150; 346; 640]) ->
   no_valid_range (-25) 840 (map (zone 170) [1050; 150; 346; 640]) /\
   exists l,
     _calculate_pm_positions (Some st) = Ok l /\
     _fallback_pm_positions (VNum (-25)) = Ok l /\
     positions_eq l [-25; 177.5; 335; 542.5]) /\
  (pm_obstacles st = Ok [] ->
   exists l,
     _calculate_pm_positions (Some st) = Ok l /\
     positions_eq l [-25; 177.5; 572.5; 780]).
Proof.
  intros Hfh Hpm1. split; intros Hobs.
  - split; [reflexivity |].
    run_solver Hfh Hpm1 Hobs. vm_compute.
    eexists. split; [reflexivity |]. split; [reflexivity |].
    repeat constructor.
  - run_solver Hfh Hpm1 Hobs. vm_compute.
    eexists. split; [reflexivity |]. repeat constructor.
Qed.

Lemma pm_positions_min_frame_witness :
  (no_valid_range (-25) 840 (map (zone 170) [1050; 150; 346; 640]) /\
   exists l,
     _calculate_pm_positions (Some st_min_auto) = Ok l /\
     _fallback_pm_positions (VNum (-25)) = Ok l /\
     positions_eq l [-25; 177.5; 335; 542.5]) /\
  (exists l,
     _calculate_pm_positions (Some st_min_plain) = Ok l /\
     positions_eq l [-25; 177.5; 572.5; 780]).
Proof.
  split.
  - apply (proj1 (pm_positions_min_frame st_min_auto eq_refl eq_refl)).
    vm_compute. reflexivity.
  - apply (proj2 (pm_positions_min_frame st_min_plain eq_refl eq_refl)).
    reflexivity.
Defined.

Lemma st_min_auto_obstacles :
  pm_obstacles st_min_auto = Ok (map (zone 170) [1050; 150; 346; 640]).
Proof. vm_compute. reflexivity. Qed.

(** ** Fallback, exceptions and the shape of the result *)

Lemma fallback_shape (p : Q) :
  exists pm2 pm3 pm4, _fallback_pm_positions (VNum p) = Ok [p; pm2; pm3; pm4].
Proof. do 3 eexists. reflexivity. Qed.



Lemma pm1_anchor_numeric (v : value) :
  numeric_or_unset v -> exists p, pm1_anchor v = VNum p.
Proof. destruct v; simpl; intros H; [eauto | eauto | contradiction]. Qed.

(** With a numeric PM1 anchor the solver returns a list, whatever the other
    variables hold: the list is empty, or it has four positions and starts
    with the anchor. *)
Lemma pm_positions_shape (st : gmap string value) (pm1 : Q) :
  pm1_anchor (get_dollar_variable st "pm1_position") = VNum pm1 ->
  _calculate_pm_positions (Some st) = Ok [] \/
  exists pm2 pm3 pm4,
    _calculate_pm_positions (Some st) = Ok [pm1; pm2; pm3; pm4].
Proof.
  intros Hpm1. destruct (fallback_shape pm1) as (f2 & f3 & f4 & Hf).
  unfold _calculate_pm_positions, pm_positions_body. rewrite Hpm1, Hf.
  destruct (truthy _); simpl; [| now left].
  destruct (py_le _ 0) as [[|] | e]; simpl; [now left | | right; eauto].
  destruct (py_sub _ pm4_half_height) as [range_end | e]; simpl; [| right; eauto].
  destruct (Qle_bool range_end _); [right; eauto |].
  destruct (pm_obstacles st) as [obstacles | e]; simpl; [| right; eauto].
  destruct (last _) as [last_range |]; [| right; eauto].
  destruct (_optimize_pm2_pm3_positions _ _ _) as [pm2 pm3]. right. eauto.
Qed.

(** A tab without a main window gets the empty list. *)
Example pm_positions_without_window : _calculate_pm_positions None = Ok [].
Proof. reflexivity. Qed.

(** The solver of a tab whose PM1 anchor is a number raises nothing. *)
Lemma pm_positions_no_exception (st : gmap string value) :
  numeric_or_unset (get_dollar_variable st "pm1_position") ->
  exists l, _calculate_pm_positions (Some st) = Ok l.
Proof.
  intros H. destruct (pm1_anchor_numeric _ H) as [pm1 Hpm1].
  destruct (pm_positions_shape st pm1 Hpm1) as [-> | (? & ? & ? & ->)]; eauto.
Qed.

(** C9.  A PM1 position that is not a number makes [range_start] raise
    [TypeError]; the handler catches it and calls the fallback with the same
    value, whose first addition raises [TypeError] again, outside the [try]:
    the exception leaves the solver. *)
Theorem pm_positions_text_anchor_raises :
  pm_positions_body st_text_anchor (VNum 2100) (VStr "abc") = Raise TypeError /\
  _fallback_pm_positions (pm1_anchor (VStr "abc")) = Raise TypeError /\
  _calculate_pm_positions (Some st_text_anchor) = Raise TypeError.
Proof. repeat split; reflexivity. Qed.



(** ** Validation *)

Lemma py_or0_numeric (v : value) :
  numeric_or_unset v -> exists q, py_or0 v = VNum q.
Proof.
  destruct v as [| q | s]; simpl; intros H; [eauto | | contradiction].
  unfold py_or0. destruct (truthy (VNum q)); eauto.
Qed.

Lemma active_position_total (st : gmap string value) (active position : string) :
  numeric_or_unset (get_dollar_variable st position) ->
  exists ps, active_position st active position = Ok ps.
Proof.
  intros H. unfold active_position.
  destruct (truthy (get_dollar_variable st active)); [| eauto].
  destruct (get_dollar_variable st position) as [| q | s];
    [eauto | | contradiction].
  destruct (truthy (VNum q)); [| eauto]. simpl.
  destruct (Qlt_bool 0 q); eauto.
Qed.

Lemma fold_left_length {A B : Type} (f : list A -> B -> list A) (n : nat) :
  (forall l b, length l = n -> length (f l b) = n) ->
  forall (bs : list B) (l : list A),
    length l = n -> length (fold_left f bs l) = n.
Proof.
  intros Hf bs. induction bs as [| b bs IH]; intros l Hl; simpl; [exact Hl |].
  apply IH, Hf, Hl.
Qed.

Lemma check_distances_length (pms : list Q) (errors : list bool) :
  length (check_distances pms errors) = length errors.
Proof.
  unfold check_distances. apply fold_left_length; [| reflexivity].
  intros l [[i j] d] Hl.
  destruct (Qlt_bool _ _); [| exact Hl]. now rewrite !length_insert.
Qed.

Lemma check_obstacles_length (pms obstacles : list Q) (errors : list bool) :
  length (check_obstacles pms obstacles errors) = length errors.
Proof.
  unfold check_obstacles. apply fold_left_length; [| reflexivity].
  intros l ip Hl. apply fold_left_length; [| exact Hl].
  intros l' o Hl'. destruct (Qlt_bool _ _); [| exact Hl'].
  now rewrite length_insert.
Qed.

(** C8 as the specification words it fails: with a frame height of zero PM4 at
    1000 exceeds the frame height minus 60, and no PM is flagged. *)
Lemma run_validation_pm4_counterexample :
  py_or0 (get_dollar_variable st_zero_height "frame_height") = VNum 0 /\
  py_or0 (get_dollar_variable st_zero_height "pm4_position") = VNum 1000 /\
  0 - 60 < 1000 /\
  run_validation st_zero_height = Ok [false; false; false; false].
Proof. repeat split. Qed.

(** C8, amended.  When the frame height is positive and the variables the
    validation computes with are numbers or unset, the validation returns an
    error vector of four entries, and PM4's entry is set whenever the PM4
    position exceeds the frame height minus 60. *)
Theorem run_validation_flags_pm4 (st : gmap string value) (h pm4 : Q) :
  Forall (fun name => numeric_or_unset (get_dollar_variable st name))
         validation_inputs ->
  py_or0 (get_dollar_variable st "frame_height") = VNum h ->
  py_or0 (get_dollar_variable st "pm4_position") = VNum pm4 ->
  0 < h ->
  h - 60 < pm4 ->
  exists errors,
    run_validation st = Ok errors /\
    length errors = 4%nat /\
    errors !! 3%nat = Some true.
Proof.
  intros Hnum Hh Hpm4 Hpos Hover. unfold validation_inputs in Hnum.
  repeat match goal with
         | H : Forall _ (_ :: _) |- _ =>
             apply Forall_cons_iff in H; destruct H as [? H]
         end.
  unfold run_validation, validation_obstacles. cbn [seq map nums hinge_positions].
  change (pm_name 0) with "pm1_position"; change (pm_name 1) with "pm2_position".
  change (pm_name 2) with "pm3_position"; change (pm_name 3) with "pm4_position".
  change (hinge_name 0 "_active") with "hinge1_active".
  change (hinge_name 1 "_active") with "hinge2_active".
  change (hinge_name 2 "_active") with "hinge3_active".
  change (hinge_name 3 "_active") with "hinge4_active".
  change (hinge_name 0 "_position") with "hinge1_position".
  change (hinge_name 1 "_position") with "hinge2_position".
  change (hinge_name 2 "_position") with "hinge3_position".
  change (hinge_name 3 "_position") with "hinge4_position".
  destruct (py_or0_numeric (get_dollar_variable st "pm1_position")) as [p1 ->];
    [assumption |].
  destruct (py_or0_numeric (get_dollar_variable st "pm2_position")) as [p2 ->];
    [assumption |].
  destruct (py_or0_numeric (get_dollar_variable st "pm3_position")) as [p3 ->];
    [assumption |].
  rewrite Hpm4, Hh.
  destruct (active_position_total st "lock_active" "lock_position") as [l0 ->];
    [assumption |].
  destruct (active_position_total st "hinge1_active" "hinge1_position") as [l1 ->];
    [assumption |].
  destruct (active_position_total st "hinge2_active" "hinge2_position") as [l2 ->];
    [assumption |].
  destruct (active_position_total st "hinge3_active" "hinge3_position") as [l3 ->];
    [assumption |].
  destruct (active_position_total st "hinge4_active" "hinge4_position") as [l4 ->];
    [assumption |].
  cbn [bind num]. eexists. split; [reflexivity |].
  unfold check_height. cbn [nth].
  pm_constants.
  destruct (Qlt_bool_case 0 h) as [[-> Hc] | [-> Hc]]; [| lra].
  destruct (Qlt_bool_case (h - pm4_half_height) pm4) as [[-> Hc'] | [-> Hc']];
    [| lra].
  assert (Hlen : length (check_obstacles [p1; p2; p3; pm4]
                  (l0 ++ l1 ++ l2 ++ l3 ++ l4 ++ [])
                  (check_distances [p1; p2; p3; pm4]
                     [false; false; false; false])) = 4%nat).
  { now rewrite check_obstacles_length, check_distances_length. }
  split.
  - now rewrite length_insert.
  - apply list_lookup_insert_eq. rewrite Hlen. lia.
Qed.

Lemma run_validation_flags_pm4_witness :
  exists errors,
    run_validation (<["frame_height" := VNum 1000]> st_zero_height) = Ok errors /\
    length errors = 4%nat /\
    errors !! 3%nat = Some true.
Proof.
  apply (run_validation_flags_pm4 _ 1000 1000).
  - repeat constructor.
  - reflexivity.
  - reflexivity.
  - lra.
  - lra.
Defined.

(** ** Valid ranges *)

Lemma py_max_cases (a b : Q) :
  (py_max a b = b /\ a < b) \/ (py_max a b = a /\ b <= a).
Proof.
  unfold py_max. destruct (Qlt_bool_case a b) as [[-> H] | [-> H]]; auto.
Qed.

Lemma py_min_cases (a b : Q) :
  (py_min a b = b /\ b < a) \/ (py_min a b = a /\ a <= b).
Proof.
  unfold py_min. destruct (Qlt_bool_case b a) as [[-> H] | [-> H]]; auto.
Qed.

Lemma insert_by_start_In (x o : interval) (l : list interval) :
  In x (insert_by_start o l) <-> x = o \/ In x l.
Proof.
  induction l as [| o' l IH]; simpl.
  - intuition congruence.
  - destruct (Qle_bool (fst o) (fst o')); simpl; [intuition congruence |].
    rewrite IH. intuition congruence.
Qed.

Lemma sorted_by_start_In (x : interval) (l : list interval) :
  In x (sorted_by_start l) <-> In x l.
Proof.
  induction l as [| o l IH]; simpl; [reflexivity |].
  rewrite insert_by_start_In, IH. intuition congruence.
Qed.

Lemma insert_by_start_sorted (o : interval) (l : list interval) :
  StronglySorted by_start l -> StronglySorted by_start (insert_by_start o l).
Proof.
  induction 1 as [| o' l Hs IH Hall]; simpl.
  - repeat constructor.
  - destruct (Qle_bool_case (fst o) (fst o')) as [[-> Hc] | [-> Hc]].
    + constructor; [now constructor |].
      constructor; [exact Hc |].
      eapply Forall_impl; [exact Hall |]. unfold by_start. intros; simpl in *; lra.
    + constructor; [exact IH |].
      apply List.Forall_forall. intros x Hx. apply insert_by_start_In in Hx.
      destruct Hx as [-> | Hx]; [unfold by_start; lra |].
      rewrite List.Forall_forall in Hall. now apply Hall.
Qed.

Lemma sorted_by_start_sorted (l : list interval) :
  StronglySorted by_start (sorted_by_start l).
Proof.
  induction l as [| o l IH]; simpl; [constructor |].
  now apply insert_by_start_sorted.
Qed.

(** Case analysis on every comparison of one step of the loop. *)
Ltac loop_cases :=
  cbn [valid_ranges_loop fst snd];
  repeat match goal with
         | |- context [py_min ?x ?y] =>
             destruct (py_min_cases x y) as [[-> ?] | [-> ?]]
         end;
  repeat match goal with
         | |- context [py_max ?x ?y] =>
             destruct (py_max_cases x y) as [[-> ?] | [-> ?]]
         end;
  repeat (match goal with
          | |- context [Qlt_bool ?x ?y] =>
              destruct (Qlt_bool_case x y) as [[-> ?] | [-> ?]]
          end; cbn [andb fst snd]).

Section ValidRangesLoop.
Variables range_start range_end : Q.

Lemma valid_ranges_loop_within (obstacles : list interval) :
  forall current_start,
    Forall (range_within range_end current_start)
           (valid_ranges_loop range_start range_end obstacles current_start).
Proof.
  unfold range_within.
  induction obstacles as [| o rest IH]; intros cs; loop_cases;
    repeat (apply List.Forall_cons; [cbn [fst snd]; lra |]);
    try (apply List.Forall_nil);
    try (eapply List.Forall_impl; [| apply IH]; cbn beta; intros r; lra).
Qed.

Lemma valid_ranges_loop_within_In (obstacles : list interval)
    (current_start : Q) (r : interval) :
  In r (valid_ranges_loop range_start range_end obstacles current_start) ->
  range_within range_end current_start r.
Proof.
  intros Hr. pose proof (valid_ranges_loop_within obstacles current_start) as H.
  rewrite List.Forall_forall in H. now apply H.
Qed.

Lemma valid_ranges_loop_apart (w : Q) (obstacles : list interval) :
  Forall (fun o => fst o + w <= snd o) obstacles ->
  forall current_start,
    range_start <= current_start ->
    StronglySorted (apart w)
      (valid_ranges_loop range_start range_end obstacles current_start).
Proof.
  induction 1 as [| o rest Ho Hrest IH]; intros cs Hcs; loop_cases;
    try (now repeat constructor);
    try (apply IH; lra).
  all: constructor; [apply IH; lra |].
  all: eapply List.Forall_impl; [| apply valid_ranges_loop_within].
  all: unfold apart, range_within; cbn [fst snd]; intros r; lra.
Qed.

(** Every range lies on one side of every obstacle. *)
Lemma valid_ranges_loop_avoid (obstacles : list interval) :
  range_start < range_end ->
  StronglySorted by_start obstacles ->
  forall current_start r o,
    range_start <= current_start ->
    In r (valid_ranges_loop range_start range_end obstacles current_start) ->
    In o obstacles ->
    snd r <= fst o \/ snd o <= fst r.
Proof.
  intros Hspan. induction 1 as [| o rest Hsorted IH Hfirst];
    intros cs r o' Hcs Hr Ho'; [contradiction |].
  rewrite List.Forall_forall in Hfirst. unfold by_start in Hfirst.
  revert Hr. loop_cases; intros Hr.
  all: repeat match goal with
              | H : In _ (_ :: _) |- _ => destruct H as [<- | H]
              end; cbn [fst snd]; try lra.
  all: try (specialize (Hfirst _ Ho'); lra).
  all: try (apply valid_ranges_loop_within_In in Hr; unfold range_within in Hr; lra).
  all: eapply IH; [| exact Hr | exact Ho']; lra.
Qed.

(** Every point of the span that no obstacle contains is inside a range. *)
Lemma valid_ranges_loop_cover (obstacles : list interval) :
  forall current_start x,
    current_start < x < range_end ->
    (forall o, In o obstacles -> ~ (fst o <= x <= snd o)) ->
    exists r,
      In r (valid_ranges_loop range_start range_end obstacles current_start) /\
      fst r < x < snd r.
Proof.
  induction obstacles as [| o rest IH]; intros cs x Hx Hfree.
  - loop_cases; [| lra]. eexists. split; [now left |]. cbn [fst snd]. lra.
  - pose proof (Hfree o (or_introl eq_refl)) as Ho.
    assert (Hrest : forall o', In o' rest -> ~ (fst o' <= x <= snd o'))
      by (intros o' Ho'; apply Hfree; now right).
    loop_cases.
    all: try match goal with
             | |- exists r, In r ((?a, ?e) :: _) /\ _ =>
                 destruct (Qlt_le_dec x e);
                 [exists (a, e); split; [now left | cbn [fst snd]; lra] |]
             end.
    all: match goal with
         | |- context [valid_ranges_loop _ _ _ ?c] =>
             destruct (IH c x) as (r & Hr & Hin); [lra | exact Hrest |]
         end.
    all: exists r; split; [| exact Hin]; (exact Hr || (right; exact Hr)).
Qed.
End ValidRangesLoop.

(** The same facts for [_calculate_valid_ranges], which sorts the obstacles
    and starts the loop at [range_start]. *)
Lemma calculate_valid_ranges_within (range_start range_end : Q)
    (obstacles : list interval) (r : interval) :
  In r (_calculate_valid_ranges range_start range_end obstacles) ->
  range_within range_end range_start r.
Proof. apply valid_ranges_loop_within_In. Qed.

Lemma calculate_valid_ranges_apart (range_start range_end w : Q)
    (obstacles : list interval) :
  Forall (fun o => fst o + w <= snd o) obstacles ->
  StronglySorted (apart w)
    (_calculate_valid_ranges range_start range_end obstacles).
Proof.
  intros Hwide. apply valid_ranges_loop_apart; [| lra].
  rewrite List.Forall_forall in *. intros o Ho. apply Hwide.
  now apply sorted_by_start_In.
Qed.

Lemma calculate_valid_ranges_avoid (range_start range_end : Q)
    (obstacles : list interval) (r o : interval) :
  range_start < range_end ->
  In r (_calculate_valid_ranges range_start range_end obstacles) ->
  In o obstacles ->
  snd r <= fst o \/ snd o <= fst r.
Proof.
  intros Hspan Hr Ho.
  eapply (valid_ranges_loop_avoid range_start range_end);
    [exact Hspan | apply sorted_by_start_sorted | | exact Hr
    | now apply sorted_by_start_In].
  lra.
Qed.

Lemma calculate_valid_ranges_cover (range_start range_end : Q)
    (obstacles : list interval) (x : Q) :
  range_start < x < range_end ->
  (forall o, In o obstacles -> ~ (fst o <= x <= snd o)) ->
  exists r,
    In r (_calculate_valid_ranges range_start range_end obstacles) /\
    fst r < x < snd r.
Proof.
  intros Hx Hfree. apply valid_ranges_loop_cover; [exact Hx |].
  intros o Ho. apply Hfree. now apply sorted_by_start_In.
Qed.

Lemma large_enough_filter (ranges : list interval) (r : interval) :
  In r (List.filter large_enough ranges) <->
  In r ranges /\ 120 <= snd r - fst r.
Proof.
  rewrite filter_In. unfold large_enough, PM_CONFIG.min_range_size.
  now rewrite Qle_bool_iff.
Qed.




(** On that frame the caller drops the small range: PM4 is put at 780, the
    end of the one range kept, and PM3 at 675 inside it. *)
Example small_range_discarded :
  _calculate_valid_ranges (-25 + min_pm1_to_pm2) (840 - pm4_half_height)
    [zone 170 450] = [(-25 + min_pm1_to_pm2, 450 - 170);
                      (450 + 170, 840 - pm4_half_height)] /\
  exists l,
    _calculate_pm_positions (Some st_lock_low) = Ok l /\
    positions_eq l [-25; 177.5; 675; 780].
Proof.
  split; [reflexivity |].
  eexists. split; [vm_compute; reflexivity | repeat constructor].
Qed.

Example valid_ranges_example :
  _calculate_valid_ranges 0 1000 [(600, 940); (100, 440)] =
    [(0, 100); (440, 600); (940, 1000)] /\
  List.filter large_enough (_calculate_valid_ranges 0 1000 [(600, 940); (100, 440)]) =
    [(440, 600)].
Proof. split; reflexivity. Qed.

(** ** PM2 and PM3 inside the valid ranges *)

Lemma StronglySorted_trichotomy {A : Type} (R : A -> A -> Prop) (l : list A) :
  StronglySorted R l ->
  forall a b, In a l -> In b l -> a = b \/ R a b \/ R b a.
Proof.
  induction 1 as [| x l Hs IH Hx]; intros a b Ha Hb; [contradiction |].
  rewrite List.Forall_forall in Hx.
  destruct Ha as [<- | Ha], Hb as [<- | Hb]; auto.
Qed.

Lemma StronglySorted_filter {A : Type} (R : A -> A -> Prop) (f : A -> bool)
    (l : list A) :
  StronglySorted R l -> StronglySorted R (List.filter f l).
Proof.
  induction 1 as [| x l Hs IH Hx]; simpl; [constructor |].
  destruct (f x); [| exact IH].
  constructor; [exact IH |].
  rewrite List.Forall_forall in *. intros y Hy. apply Hx.
  apply filter_In in Hy. tauto.
Qed.

Lemma find_first {A : Type} (f : A -> bool) (l : list A) (x : A) :
  Forall (fun y => f y = true) l -> find f l = Some x ->
  exists rest, l = x :: rest.
Proof.
  destruct 1 as [| y l Hy Hl]; simpl; [discriminate |].
  rewrite Hy. intros [= ->]. eauto.
Qed.

Lemma position_in_valid_ranges_true (position : Q) (valid_ranges : list interval) :
  _position_in_valid_ranges position valid_ranges = true ->
  exists r, In r valid_ranges /\ fst r <= position <= snd r.
Proof.
  unfold _position_in_valid_ranges. intros H.
  apply existsb_exists in H. destruct H as (r & Hr & H).
  apply andb_prop in H. destruct H as [H1 H2].
  apply Qle_bool_iff in H1, H2. eauto.
Qed.

Lemma optimize_pm2_pm3_steps (pm1_pos pm4_pos : Q) (valid_ranges : list interval) :
  _optimize_pm2_pm3_positions pm1_pos pm4_pos valid_ranges =
    if Qlt_bool (pm4_pos - min_pm3_to_pm4 - (pm1_pos + min_pm1_to_pm2))
                min_pm2_to_pm3
    then (pm1_pos + min_pm1_to_pm2, pm1_pos + min_pm1_to_pm2 + min_pm2_to_pm3)
    else kept_apart pm1_pos (snapped_pm2 pm1_pos valid_ranges)
           (snapped_pm3 pm4_pos valid_ranges) valid_ranges.
Proof. reflexivity. Qed.

Section Snapping.
Variables (pm1_pos pm4_pos : Q) (valid_ranges : list interval).

(** Every valid range starts at or after [range_start] and is not empty;
    two ranges are at least an obstacle's width apart. *)
Hypothesis ranges_after :
  Forall (fun r => pm1_pos + min_pm1_to_pm2 <= fst r /\ fst r < snd r)
         valid_ranges.
Hypothesis ranges_apart : StronglySorted (apart 340) valid_ranges.

Lemma snapped_pm2_cases :
  snapped_pm2 pm1_pos valid_ranges = pm1_pos + min_pm1_to_pm2 \/
  exists r rest,
    valid_ranges = r :: rest /\ snapped_pm2 pm1_pos valid_ranges = fst r.
Proof.
  unfold snapped_pm2.
  destruct (_position_in_valid_ranges _ _); simpl; [now left |].
  destruct (find _ _) as [r |] eqn:Hfind; [| now left].
  assert (Hall : Forall (fun y => Qle_bool (pm1_pos + min_pm1_to_pm2) (fst y)
                                  = true) valid_ranges).
  { eapply List.Forall_impl; [| exact ranges_after].
    cbn beta. intros r' [H _]. now apply Qle_bool_iff. }
  destruct (find_first _ _ _ Hall Hfind) as [rest Hrest].
  right. exists r, rest. split; [exact Hrest | reflexivity].
Qed.

Lemma snapped_pm3_cases :
  snapped_pm3 pm4_pos valid_ranges = pm4_pos - min_pm3_to_pm4 \/
  exists r, In r valid_ranges /\ snapped_pm3 pm4_pos valid_ranges = snd r.
Proof.
  unfold snapped_pm3.
  destruct (_position_in_valid_ranges _ _); simpl; [now left |].
  destruct (find _ _) as [r |] eqn:Hfind; [| now left].
  right. exists r. apply find_some in Hfind. destruct Hfind as [Hr _].
  apply in_rev in Hr. auto.
Qed.

Lemma ranges_after_In (r : interval) :
  In r valid_ranges -> pm1_pos + min_pm1_to_pm2 <= fst r /\ fst r < snd r.
Proof.
  intros Hr. pose proof ranges_after as H.
  rewrite List.Forall_forall in H. now apply H.
Qed.

(** The snapped PM2 is at or after [range_start], and before the end of
    every valid range. *)
Lemma snapped_pm2_bounds :
  pm1_pos + min_pm1_to_pm2 <= snapped_pm2 pm1_pos valid_ranges /\
  forall r, In r valid_ranges -> snapped_pm2 pm1_pos valid_ranges < snd r.
Proof.
  destruct snapped_pm2_cases as [-> | (r2 & rest & Hlist & ->)].
  - split; [lra |]. intros r Hr. apply ranges_after_In in Hr. lra.
  - assert (H2 : In r2 valid_ranges) by (rewrite Hlist; now left).
    apply ranges_after_In in H2. split; [lra |].
    intros r Hr. pose proof ranges_apart as Hs. rewrite Hlist in Hs, Hr.
    apply StronglySorted_inv in Hs. destruct Hs as [_ Hs].
    rewrite List.Forall_forall in Hs.
    destruct Hr as [<- | Hr]; [lra |].
    specialize (Hs r Hr). unfold apart in Hs.
    assert (Hr' : In r valid_ranges) by (rewrite Hlist; now right).
    apply ranges_after_In in Hr'. lra.
Qed.

(** PM2 stays at least 202.5 after PM1 and PM3 at least 157.5 after PM2
    through the adjustment, when PM4 leaves room for both. *)
Lemma kept_apart_clearances (pm2 pm3 : Q) :
  pm1_pos + min_pm1_to_pm2 + min_pm2_to_pm3 <= pm4_pos - min_pm3_to_pm4 ->
  kept_apart pm1_pos (snapped_pm2 pm1_pos valid_ranges)
    (snapped_pm3 pm4_pos valid_ranges) valid_ranges = (pm2, pm3) ->
  pm1_pos + min_pm1_to_pm2 <= pm2 /\ pm2 + min_pm2_to_pm3 <= pm3.
Proof.
  intros Hroom. destruct snapped_pm2_bounds as [Hlow Hbefore].
  pose proof snapped_pm3_cases as H3.
  pose proof min_pm2_to_pm3_value as H23.
  revert Hlow Hbefore H3.
  generalize (snapped_pm2 pm1_pos valid_ranges)
             (snapped_pm3 pm4_pos valid_ranges).
  intros b2 b3 Hlow Hbefore H3. unfold kept_apart.
  destruct (Qlt_bool_case (b3 - b2) min_pm2_to_pm3) as [[-> Hadj] | [-> Hadj]];
    [| intros [= <- <-]; split; lra].
  cbv zeta.
  destruct (_position_in_valid_ranges ((b2 + b3) / 2 - min_pm2_to_pm3 / 2) _)
    eqn:Hin2; cbn [negb].
  - apply position_in_valid_ranges_true in Hin2.
    destruct Hin2 as (r & Hr & Hpos). apply ranges_after_In in Hr.
    destruct (_position_in_valid_ranges ((b2 + b3) / 2 + min_pm2_to_pm3 / 2) _);
      cbn [negb]; intros [= <- <-]; qdiv; split; lra.
  - destruct (_position_in_valid_ranges ((b2 + b3) / 2 + min_pm2_to_pm3 / 2) _)
      eqn:Hin3; cbn [negb]; intros [= <- <-]; [| split; lra].
    split; [lra |].
    destruct H3 as [H3 | (r0 & Hr0 & H3)].
    + rewrite H3. qdiv. lra.
    + apply position_in_valid_ranges_true in Hin3.
      destruct Hin3 as (r1 & Hr1 & Hpos).
      pose proof (Hbefore r0 Hr0) as Hb.
      pose proof (ranges_after_In r0 Hr0) as Ha0.
      pose proof (ranges_after_In r1 Hr1) as Ha1.
      rewrite H3 in *.
      destruct (StronglySorted_trichotomy _ _ ranges_apart r0 r1 Hr0 Hr1)
        as [<- | [Hap | Hap]]; unfold apart in *; qdiv; lra.
Qed.

Lemma optimize_pm2_pm3_clearances (pm2 pm3 : Q) :
  _optimize_pm2_pm3_positions pm1_pos pm4_pos valid_ranges = (pm2, pm3) ->
  pm1_pos + min_pm1_to_pm2 <= pm2 /\ pm2 + min_pm2_to_pm3 <= pm3.
Proof.
  rewrite optimize_pm2_pm3_steps.
  destruct (Qlt_bool_case
              (pm4_pos - min_pm3_to_pm4 - (pm1_pos + min_pm1_to_pm2))
              min_pm2_to_pm3) as [[-> H] | [-> H]].
  - intros [= <- <-]. split; lra.
  - apply kept_apart_clearances. lra.
Qed.
End Snapping.

(** ** The zones of the active lock and hinges *)

Lemma obstacle_of_wide (st : gmap string value) (active position : string)
    (safety : Q) (zones : list interval) :
  obstacle_of st active position safety = Ok zones ->
  Forall (fun z => fst z + (safety + safety) <= snd z) zones.
Proof.
  unfold obstacle_of.
  destruct (active_position st active position) as [ps | e]; simpl;
    [| discriminate].
  intros [= <-]. apply List.Forall_forall. intros z Hz.
  apply in_map_iff in Hz. destruct Hz as (p & <- & _).
  unfold zone. cbn [fst snd]. lra.
Qed.

Lemma hinge_obstacles_wide (st : gmap string value) (indices : list nat) :
  forall zones,
    hinge_obstacles st indices = Ok zones ->
    Forall (fun z => fst z + 340 <= snd z) zones.
Proof.
  induction indices as [| i rest IH]; simpl; intros zones.
  - intros [= <-]. constructor.
  - destruct (obstacle_of st _ _ _) as [z | e] eqn:Hz; simpl; [| discriminate].
    destruct (hinge_obstacles st rest) as [zs | e]; simpl; [| discriminate].
    intros [= <-]. apply Forall_app. split; [| now apply IH].
    apply obstacle_of_wide in Hz.
    eapply List.Forall_impl; [| exact Hz].
    unfold PM_CONFIG.hinge_safety_distance. cbn beta. intros; lra.
Qed.

(** Every obstacle zone of the solver is 340 wide. *)
Lemma pm_obstacles_wide (st : gmap string value) (zones : list interval) :
  pm_obstacles st = Ok zones -> Forall (fun z => fst z + 340 <= snd z) zones.
Proof.
  unfold pm_obstacles.
  destruct (obstacle_of st _ _ _) as [z | e] eqn:Hz; cbn [bind]; [| discriminate].
  destruct (hinge_obstacles st _) as [zs | e] eqn:Hzs; cbn [bind]; [| discriminate].
  intros [= <-]. apply Forall_app. split.
  - apply obstacle_of_wide in Hz.
    eapply List.Forall_impl; [| exact Hz].
    unfold PM_CONFIG.lock_safety_distance. cbn beta. intros; lra.
  - now apply (hinge_obstacles_wide st (seq 0 4)).
Qed.

(** ** The paths of the solver *)

(** A non-empty result is either the fallback for the numeric PM1 anchor, or
    it comes from steps 5 and 6 on a non-degenerate span with a valid range. *)
Lemma pm_positions_paths (st : gmap string value) (l : list Q) :
  _calculate_pm_positions (Some st) = Ok l ->
  l = [] \/
  exists pm1,
    pm1_anchor (get_dollar_variable st "pm1_position") = VNum pm1 /\
    (_fallback_pm_positions (VNum pm1) = Ok l \/
     exists h zones last_range pm2 pm3,
       get_dollar_variable st "frame_height" = VNum h /\
       0 < h /\
       pm1 + min_pm1_to_pm2 < h - pm4_half_height /\
       pm_obstacles st = Ok zones /\
       last (solver_ranges pm1 h zones) = Some last_range /\
       _optimize_pm2_pm3_positions pm1 (snd last_range)
         (solver_ranges pm1 h zones) = (pm2, pm3) /\
       l = [pm1; pm2; pm3; snd last_range]).
Proof.
  unfold _calculate_pm_positions, pm_positions_body, solver_ranges.
  destruct (pm1_anchor (get_dollar_variable st "pm1_position"))
    as [| pm1 | s] eqn:Hanchor.
  - destruct (get_dollar_variable st "pm1_position"); discriminate.
  - destruct (get_dollar_variable st "frame_height") as [| h | s];
      [intros [= <-]; now left | |].
    + cbn [truthy negb py_le py_add py_sub num bind].
      destruct (Qeq_bool_case h 0) as [[-> Hz] | [-> Hz]]; cbn [negb];
        [intros [= <-]; now left |].
      destruct (Qle_bool_case h 0) as [[-> Hh] | [-> Hh]];
        [intros [= <-]; now left |].
      destruct (Qle_bool_case (h - pm4_half_height) (pm1 + min_pm1_to_pm2))
        as [[-> Hspan] | [-> Hspan]].
      { intros H. right. exists pm1. split; [reflexivity | left].
        destruct (_fallback_pm_positions (VNum pm1)); congruence. }
      destruct (pm_obstacles st) as [zones | e]; cbn [bind].
      2: { intros H. right. exists pm1. split; [reflexivity | now left]. }
      destruct (last _) as [last_range |] eqn:Hlast.
      2: { intros H. right. exists pm1. split; [reflexivity | left].
           destruct (_fallback_pm_positions (VNum pm1)); congruence. }
      destruct (_optimize_pm2_pm3_positions _ _ _) as [pm2 pm3] eqn:Hopt.
      intros [= <-]. right. exists pm1. split; [reflexivity | right].
      exists h, zones, last_range, pm2, pm3. repeat split; assumption.
    + cbn [truthy]. destruct (negb (negb _)); [intros [= <-]; now left |].
      cbn [py_le num bind]. intros H. right. exists pm1.
      split; [reflexivity | now left].
  - destruct (get_dollar_variable st "frame_height") as [| h | s'];
      [intros [= <-]; now left | |].
    + cbn [truthy negb py_le py_add py_sub num bind].
      destruct (negb (Qeq_bool h 0)); [| intros [= <-]; now left].
      destruct (Qle_bool h 0); [intros [= <-]; now left | discriminate].
    + cbn [truthy]. destruct (negb (negb _)); [intros [= <-]; now left |].
      discriminate.
Qed.

(** ** Inputs on which the arithmetic is exact *)

Lemma on_grid_plus (d a b : Q) : on_grid d a -> on_grid d b -> on_grid d (a + b).
Proof.
  intros [n Ha] [m Hb]. exists (n + m)%Z.
  rewrite inject_Z_plus, <- Ha, <- Hb. ring.
Qed.

Lemma on_grid_minus (d a b : Q) : on_grid d a -> on_grid d b -> on_grid d (a - b).
Proof.
  intros [n Ha] [m Hb]. exists (n - m)%Z.
  unfold Z.sub. rewrite inject_Z_plus, inject_Z_opp, <- Ha, <- Hb. ring.
Qed.

Lemma on_grid_finer (q : Q) : on_grid 1024 q -> on_grid 2048 q.
Proof.
  intros [n Hq]. exists (2 * n)%Z.
  rewrite inject_Z_mult, <- Hq. change (inject_Z 2) with 2. ring.
Qed.

Lemma on_grid_half (a b : Q) :
  on_grid 1024 a -> on_grid 1024 b -> on_grid 2048 ((a + b) / 2).
Proof.
  intros [n Ha] [m Hb]. exists (n + m)%Z.
  rewrite inject_Z_plus, <- Ha, <- Hb. field.
Qed.

Lemma on_grid_min_pm1_to_pm2 : on_grid 1024 min_pm1_to_pm2.
Proof. exists 207360%Z. reflexivity. Qed.

Lemma on_grid_min_pm2_to_pm3 : on_grid 1024 min_pm2_to_pm3.
Proof. exists 161280%Z. reflexivity. Qed.

Lemma on_grid_min_pm3_to_pm4 : on_grid 1024 min_pm3_to_pm4.
Proof. exists 212480%Z. reflexivity. Qed.

Lemma on_grid_pm4_half_height : on_grid 1024 pm4_half_height.
Proof. exists 61440%Z. reflexivity. Qed.

Lemma on_grid_half_distance : on_grid 2048 (min_pm2_to_pm3 / 2).
Proof. exists 161280%Z. reflexivity. Qed.

Lemma on_grid_safety : on_grid 1024 170.
Proof. exists 174080%Z. reflexivity. Qed.

Create HintDb grid.
#[local] Hint Resolve on_grid_plus on_grid_minus on_grid_finer on_grid_half
  on_grid_min_pm1_to_pm2 on_grid_min_pm2_to_pm3 on_grid_min_pm3_to_pm4
  on_grid_pm4_half_height on_grid_half_distance on_grid_safety : grid.

Lemma exact_input_bounds (q : Q) :
  exact_input q -> on_grid 1024 q /\ -1000000 <= q <= 1000000.
Proof.
  intros [Hg Hb]. split; [exact Hg |]. now apply Qabs_Qle_condition in Hb.
Qed.

Lemma exact_result_intro (q : Q) :
  on_grid 2048 q -> -1001000 <= q <= 1001000 -> exact_result q.
Proof. intros Hg Hb. split; [exact Hg |]. now apply Qabs_Qle_condition. Qed.

(** The endpoints of the valid ranges are taken from the ends of the span and
    of the obstacles: the loop only selects, through [max] and [min]. *)
Lemma py_max_select (P : Q -> Prop) (a b : Q) : P a -> P b -> P (py_max a b).
Proof. unfold py_max. now destruct (Qlt_bool a b). Qed.

Lemma py_min_select (P : Q -> Prop) (a b : Q) : P a -> P b -> P (py_min a b).
Proof. unfold py_min. now destruct (Qlt_bool b a). Qed.

Lemma valid_ranges_loop_endpoints (P : Q -> Prop) (range_start range_end : Q)
    (obstacles : list interval) :
  P range_start ->
  P range_end ->
  Forall (fun o => P (fst o) /\ P (snd o)) obstacles ->
  forall current_start,
    P current_start ->
    Forall (fun r => P (fst r) /\ P (snd r))
      (valid_ranges_loop range_start range_end obstacles current_start).
Proof.
  intros Hs He. induction 1 as [| o rest [Ho1 Ho2] Hrest IH];
    intros current_start Hc; cbn [valid_ranges_loop].
  - destruct (Qlt_bool current_start range_end); repeat constructor; assumption.
  - cbv zeta.
    assert (H1 : P (py_max (fst o) range_start)) by now apply py_max_select.
    assert (H2 : P (py_min (snd o) range_end)) by now apply py_min_select.
    assert (H3 : P (py_max current_start (py_min (snd o) range_end)))
      by now apply py_max_select.
    destruct (_ && _); [| now apply IH].
    destruct (Qlt_bool current_start _); [| now apply IH].
    constructor; [split; assumption | now apply IH].
Qed.

Lemma calculate_valid_ranges_endpoints (P : Q -> Prop)
    (range_start range_end : Q) (obstacles : list interval) (r : interval) :
  P range_start ->
  P range_end ->
  (forall o, In o obstacles -> P (fst o) /\ P (snd o)) ->
  In r (_calculate_valid_ranges range_start range_end obstacles) ->
  P (fst r) /\ P (snd r).
Proof.
  intros Hs He Hobs Hr.
  pose proof (valid_ranges_loop_endpoints P range_start range_end
                (sorted_by_start obstacles) Hs He) as H.
  rewrite List.Forall_forall in H.
  apply (fun Hall => proj1 (List.Forall_forall _ _) (H Hall range_start Hs));
    [| exact Hr].
  intros o Ho. apply Hobs. now apply sorted_by_start_In.
Qed.

(** The position behind every zone of the solver. *)
Lemma active_position_source (st : gmap string value) (active position : string)
    (ps : list Q) (p : Q) :
  active_position st active position = Ok ps ->
  In p ps ->
  get_dollar_variable st position = VNum p.
Proof.
  unfold active_position.
  destruct (truthy (get_dollar_variable st active)); [| now intros [= <-]].
  destruct (get_dollar_variable st position) as [| q | s];
    cbn [truthy py_gt num bind].
  - now intros [= <-].
  - destruct (negb (Qeq_bool q 0)); [| now intros [= <-]].
    destruct (Qlt_bool 0 q); intros [= <-]; [| contradiction].
    now intros [<- | []].
  - destruct (negb (s =? "")%string); [discriminate | now intros [= <-]].
Qed.

Lemma hinge_obstacles_sources (st : gmap string value) (indices : list nat) :
  forall zones z,
    hinge_obstacles st indices = Ok zones ->
    In z zones ->
    exists i p,
      In i indices /\
      get_dollar_variable st (hinge_name i "_position") = VNum p /\
      z = zone 170 p.
Proof.
  induction indices as [| i rest IH]; cbn [hinge_obstacles]; intros zones z.
  - now intros [= <-].
  - unfold obstacle_of at 1.
    destruct (active_position st _ _) as [ps | e] eqn:Hps; cbn [bind];
      [| discriminate].
    destruct (hinge_obstacles st rest) as [zs | e] eqn:Hzs; cbn [bind];
      [| discriminate].
    intros [= <-] Hz. apply in_app_or in Hz. destruct Hz as [Hz | Hz].
    + apply in_map_iff in Hz. destruct Hz as (p & <- & Hp).
      exists i, p. split; [now left |]. split; [| reflexivity].
      exact (active_position_source _ _ _ _ _ Hps Hp).
    + destruct (IH zs z eq_refl Hz) as (j & p & Hj & Hget & ->).
      exists j, p. split; [now right | auto].
Qed.

Lemma pm_obstacles_sources (st : gmap string value) (zones : list interval)
    (z : interval) :
  pm_obstacles st = Ok zones ->
  In z zones ->
  exists name p,
    In name solver_inputs /\
    get_dollar_variable st name = VNum p /\
    z = zone 170 p.
Proof.
  unfold pm_obstacles, obstacle_of at 1.
  destruct (active_position st _ _) as [ps | e] eqn:Hps; cbn [bind];
    [| discriminate].
  destruct (hinge_obstacles st _) as [zs | e] eqn:Hzs; cbn [bind];
    [| discriminate].
  intros [= <-] Hz. apply in_app_or in Hz. destruct Hz as [Hz | Hz].
  - apply in_map_iff in Hz. destruct Hz as (p & <- & Hp).
    exists "lock_position", p. split; [right; right; now left |].
    split; [| reflexivity].
    exact (active_position_source _ _ _ _ _ Hps Hp).
  - destruct (hinge_obstacles_sources _ _ _ _ Hzs Hz) as (i & p & Hi & Hget & ->).
    exists (hinge_name i "_position"), p. split; [| auto].
    unfold solver_inputs. apply in_or_app. right.
    now apply (in_map (fun i => hinge_name i "_position")).
Qed.

Lemma exact_anchor (st : gmap string value) (pm1 : Q) :
  exact_inputs st ->
  pm1_anchor (get_dollar_variable st "pm1_position") = VNum pm1 ->
  exact_input pm1.
Proof.
  intros Hex. destruct (get_dollar_variable st "pm1_position") as [| q | s] eqn:E;
    cbn [pm1_anchor]; intros [= <-].
  - split; [exists (-25600)%Z; reflexivity | apply Qabs_Qle_condition; lra].
  - apply (Hex "pm1_position"); [right; now left | exact E].
Qed.

(** On exact inputs every position the solver returns is a multiple of
    1/2048 of bounded size: the source computes it without rounding. *)
Lemma pm_positions_exact (st : gmap string value) (l : list Q) :
  exact_inputs st ->
  _calculate_pm_positions (Some st) = Ok l ->
  Forall exact_result l.
Proof.
  intros Hex H. apply pm_positions_paths in H. pm_constants.
  destruct H as [-> | (pm1 & Hanchor & [Hfb | Hmain])]; [constructor | |];
    destruct (exact_input_bounds pm1 (exact_anchor st pm1 Hex Hanchor))
      as [G1 B1].
  - cbv [_fallback_pm_positions fallback_loop min_distances fold_left bind num
         fst snd app] in Hfb.
    injection Hfb as <-.
    repeat (apply Forall_cons_iff;
            split; [apply exact_result_intro; auto 10 with grid; lra |]).
    constructor.
  - destruct Hmain as (h & zones & last_range & pm2 & pm3 & Hfh & Hh & Hspan
                        & Hobs & Hlast & Hopt & ->).
    assert (Eh : exact_input h)
      by (apply (Hex "frame_height"); [now left | exact Hfh]).
    apply exact_input_bounds in Eh. destruct Eh as [Gh Bh].
    set (P := fun q : Q =>
               on_grid 1024 q /\
               pm1 + min_pm1_to_pm2 <= q <= h - pm4_half_height).
    set (S := fun q : Q => on_grid 1024 q /\ -1000500 <= q <= 1000500).
    assert (Hends : forall r, In r (solver_ranges pm1 h zones) ->
                      P (fst r) /\ P (snd r)).
    { intros r Hr. apply large_enough_filter in Hr. destruct Hr as [Hr _].
      pose proof (calculate_valid_ranges_within _ _ _ _ Hr) as Hin.
      unfold range_within in Hin.
      assert (Hgrid : on_grid 1024 (fst r) /\ on_grid 1024 (snd r)).
      { apply (calculate_valid_ranges_endpoints (on_grid 1024)
                 (pm1 + min_pm1_to_pm2) (h - pm4_half_height) zones r);
          [auto with grid | auto with grid | | exact Hr].
        intros z Hz.
        destruct (pm_obstacles_sources st zones z Hobs Hz)
          as (name & p & Hname & Hget & ->).
        destruct (exact_input_bounds p (Hex name p Hname Hget)) as [Gp _].
        unfold zone. cbn [fst snd]. split; auto with grid. }
      destruct Hgrid as [Gf Gs]. split; (split; [assumption | lra]). }
    assert (Hr : In last_range (solver_ranges pm1 h zones)).
    { apply last_Some in Hlast. destruct Hlast as [l' ->].
      apply in_or_app. right. now left. }
    destruct (Hends last_range Hr) as [_ [G4 B4]].
    assert (Hs2 : S (snapped_pm2 pm1 (solver_ranges pm1 h zones))).
    { unfold snapped_pm2. cbv zeta.
      destruct (negb _); [| split; [auto with grid | lra]].
      destruct (find _ _) as [r |] eqn:Hfind; [| split; [auto with grid | lra]].
      apply find_some in Hfind. destruct Hfind as [Hin _].
      destruct (Hends r Hin) as [[Gf Bf] _]. split; [exact Gf | lra]. }
    assert (Hs3 : S (snapped_pm3 (snd last_range) (solver_ranges pm1 h zones))).
    { unfold snapped_pm3. cbv zeta.
      destruct (negb _); [| split; [auto with grid | lra]].
      destruct (find _ _) as [r |] eqn:Hfind; [| split; [auto with grid | lra]].
      apply find_some in Hfind. destruct Hfind as [Hin _].
      apply in_rev in Hin. destruct (Hends r Hin) as [_ [Gs Bs]].
      split; [exact Gs | lra]. }
    assert (H23 : exact_result pm2 /\ exact_result pm3).
    { rewrite optimize_pm2_pm3_steps in Hopt.
      destruct (Qlt_bool _ _) in Hopt.
      - injection Hopt as <- <-.
        split; apply exact_result_intro; auto 10 with grid; lra.
      - revert Hopt Hs2 Hs3.
        generalize (snapped_pm2 pm1 (solver_ranges pm1 h zones))
                   (snapped_pm3 (snd last_range) (solver_ranges pm1 h zones)).
        intros b2 b3 Hopt [G2 B2] [G3 B3]. unfold kept_apart in Hopt.
        destruct (Qlt_bool (b3 - b2) min_pm2_to_pm3);
          [| injection Hopt as <- <-;
             split; apply exact_result_intro; auto with grid; lra].
        cbv zeta in Hopt.
        destruct (negb (_position_in_valid_ranges
                          ((b2 + b3) / 2 - min_pm2_to_pm3 / 2) _)) in Hopt;
          destruct (negb (_position_in_valid_ranges
                            ((b2 + b3) / 2 + min_pm2_to_pm3 / 2) _)) in Hopt;
          injection Hopt as <- <-;
          split; apply exact_result_intro; auto 10 with grid; qdiv; lra. }
    destruct H23 as [E2 E3].
    apply Forall_cons_iff. split; [apply exact_result_intro; auto with grid; lra |].
    apply Forall_cons_iff. split; [exact E2 |].
    apply Forall_cons_iff. split; [exact E3 |].
    apply Forall_cons_iff.
    split; [apply exact_result_intro; auto with grid; lra | constructor].
Qed.

(** The sample stores hold exact inputs. *)
Ltac exact_store :=
  intros name q Hname Hget; unfold solver_inputs in Hname;
  cbn [app map seq In] in Hname;
  repeat (destruct Hname as [<- | Hname]); try contradiction;
  vm_compute in Hget; try discriminate; injection Hget as <-;
  (split;
   [match goal with
    | |- on_grid _ ?q => exists (Qnum (Qred (1024 * q))); vm_compute; reflexivity
    end
   | vm_compute; discriminate]).

Lemma st_plain_exact : exact_inputs st_plain.
Proof. exact_store. Qed.

Lemma st_lock_plain_exact : exact_inputs st_lock_plain.
Proof. exact_store. Qed.

(** ** The invariant of the data model *)


(** Three more ways the stated invariant fails.  On a frame of height 500 the
    single valid range ends at 440, PM2 and PM3 take their minimum distances
    from PM1 and PM4 is only 105 after PM3.  With PM1 at -52.5 and the lock at
    450 on a frame of height 840 both valid ranges are kept, PM3 is snapped to
    280, re-centred and finally put 157.5 after PM2, inside the lock's zone.
    On a frame of height 200 the span is degenerate and the fallback puts PM4
    at 542.5, above the frame. *)
Example pm4_clearance_lost :
  exists l,
    _calculate_pm_positions
      (Some {[ "frame_height" := VNum 500; "pm1_position" := VNum (-25) ]}) = Ok l /\
    positions_eq l [-25; 177.5; 335; 440].
Proof. eexists. split; [vm_compute; reflexivity | repeat constructor]. Qed.

Example pm3_inside_zone :
  exists l,
    _calculate_pm_positions
      (Some {[ "frame_height" := VNum 840; "pm1_position" := VNum (-52.5);
               "lock_active" := VNum 1; "lock_position" := VNum 450 ]}) = Ok l /\
    positions_eq l [-52.5; 150; 307.5; 780] /\
    fst (zone 170 450) < 307.5 < snd (zone 170 450).
Proof.
  eexists. split; [vm_compute; reflexivity |].
  split; [repeat constructor |]. unfold zone. cbn [fst snd]. split; lra.
Qed.

Example fallback_above_frame :
  exists l,
    _calculate_pm_positions
      (Some {[ "frame_height" := VNum 200; "pm1_position" := VNum (-25) ]}) = Ok l /\
    positions_eq l [-25; 177.5; 335; 542.5].
Proof. eexists. split; [vm_compute; reflexivity | repeat constructor]. Qed.

(** Off the exact inputs the first clearance can be lost to rounding.  In
    binary64 the float nearest to 53.9 plus 202.5 is rounded down, and the
    validation finds PM2 less than 202.5 after PM1; at 53.5 nothing is
    rounded. *)
#[warnings="-inexact-float"]
Example binary64_clearance_lost :
  binary64_flagged 53.9%float (binary64_pm2 53.9%float) = true /\
  binary64_flagged 53.5%float (binary64_pm2 53.5%float) = false.
Proof. split; reflexivity. Qed.



(** * Further properties of the hinge routine *)

Lemma last_hinge_cases (h : Q) :
  (2000 <= h /\ last_hinge h = 1800) \/ (h < 2000 /\ last_hinge h = h - 200).
Proof.
  unfold last_hinge.
  destruct (Qle_bool_case 2000 h) as [[-> Hc] | [-> Hc]]; auto.
Qed.

(** X1.  The hinge routine of a tab with a main window returns the empty list
    exactly when the frame height is not a positive number (unset, zero,
    negative or a text) or the hinge count is outside 1..4. *)
Theorem hinge_positions_empty_iff (st : gmap string value) (count : Z) :
  _calculate_hinge_positions (Some st) count = [] <->
  (~ (exists h, get_dollar_variable st "frame_height" = VNum h /\ 0 < h) \/
   (count <= 0)%Z \/ (4 < count)%Z).
Proof.
  destruct (get_dollar_variable st "frame_height") as [| h | s] eqn:Hfh.
  - unfold _calculate_hinge_positions. rewrite Hfh. simpl.
    split; [| reflexivity]. intros _. left. intros (h & H & _). discriminate.
  - destruct (Qlt_le_dec 0 h) as [Hpos | Hneg].
    + rewrite (hinge_positions_positive st h count Hfh Hpos).
      assert (Hex : exists h', VNum h = VNum h' /\ 0 < h') by eauto.
      destruct (count <=? 0)%Z eqn:E0;
        [split; [intros _; right; lia | reflexivity] |].
      destruct (count =? 1)%Z eqn:E1;
        [split; [discriminate | intros [H | H]; [now destruct H | lia]] |].
      destruct (count =? 2)%Z eqn:E2;
        [split; [discriminate | intros [H | H]; [now destruct H | lia]] |].
      destruct (count =? 3)%Z eqn:E3;
        [split; [discriminate | intros [H | H]; [now destruct H | lia]] |].
      destruct (count =? 4)%Z eqn:E4;
        [split; [discriminate | intros [H | H]; [now destruct H | lia]] |].
      split; [intros _; right; lia | reflexivity].
    + split; [intros _; left; intros (h' & [= <-] & H'); lra |]. intros _.
      unfold _calculate_hinge_positions, hinge_positions_body. rewrite Hfh. simpl.
      destruct (Qeq_bool h 0); simpl; [reflexivity |].
      destruct (Qle_bool_case h 0) as [[-> _] | [-> H]]; [reflexivity | lra].
  - split; [intros _; left; intros (h & H & _); discriminate |]. intros _.
    unfold _calculate_hinge_positions, hinge_positions_body. rewrite Hfh. simpl.
    now destruct (negb (negb _)).
Qed.

(** X2.  For four hinges and a positive frame height the three gaps grow by
    the factor 1.5 from the first hinge to the last: each gap is 1.5 times the
    gap before it. *)
Theorem hinge_four_cascade (st : gmap string value) (h : Q) :
  get_dollar_variable st "frame_height" = VNum h ->
  0 < h ->
  exists p1 p2 p3 p4,
    _calculate_hinge_positions (Some st) 4 = [p1; p2; p3; p4] /\
    p3 - p2 == 1.5 * (p2 - p1) /\
    p4 - p3 == 1.5 * (p3 - p2).
Proof.
  intros Hfh Hh. rewrite (hinge_positions_positive st h) by assumption. simpl.
  do 4 eexists. split; [reflexivity |]. qdiv. split; lra.
Qed.

Lemma hinge_four_cascade_witness :
  exists p1 p2 p3 p4,
    _calculate_hinge_positions (Some st_plain) 4 = [p1; p2; p3; p4] /\
    p3 - p2 == 1.5 * (p2 - p1) /\
    p4 - p3 == 1.5 * (p3 - p2).
Proof.
  apply (hinge_four_cascade st_plain 2100); [reflexivity | lra].
Defined.

(** X3.  For two to four hinges and a positive frame height the first hinge
    is at 150 and the last one at the smaller of 1800 and the frame height
    minus 200. *)
Theorem hinge_endpoints (st : gmap string value) (h : Q) (count : Z) :
  get_dollar_variable st "frame_height" = VNum h ->
  0 < h ->
  (2 <= count <= 4)%Z ->
  exists p rest,
    _calculate_hinge_positions (Some st) count = 150 :: rest /\
    last rest = Some p /\
    p <= 1800 /\ p <= h - 200 /\ (p = 1800 \/ p = h - 200).
Proof.
  intros Hfh Hh Hcount.
  rewrite (hinge_positions_positive st h) by assumption.
  exists (last_hinge h).
  assert (Hlast : last_hinge h <= 1800 /\ last_hinge h <= h - 200 /\
                  (last_hinge h = 1800 \/ last_hinge h = h - 200)).
  { destruct (last_hinge_cases h) as [[H ->] | [H ->]];
      (split; [lra | split; [lra | auto]]). }
  assert (count = 2 \/ count = 3 \/ count = 4)%Z as [-> | [-> | ->]] by lia;
    simpl; eexists; (split; [reflexivity | split; [reflexivity | exact Hlast]]).
Qed.

Lemma hinge_endpoints_witness :
  exists p rest,
    _calculate_hinge_positions (Some st_min_plain) 3 = 150 :: rest /\
    last rest = Some p /\
    p <= 1800 /\ p <= 840 - 200 /\ (p = 1800 \/ p = 840 - 200).
Proof.
  apply (hinge_endpoints st_min_plain 840 3); [reflexivity | lra | lia].
Defined.

(** X4.  For two to four hinges and a positive frame height the positions are
    strictly increasing exactly when the frame height exceeds 350; they then
    all lie above 0 and at most at the frame height. *)
Theorem hinge_positions_increasing_iff
    (st : gmap string value) (h : Q) (count : Z) :
  get_dollar_variable st "frame_height" = VNum h ->
  0 < h ->
  (2 <= count <= 4)%Z ->
  let positions := _calculate_hinge_positions (Some st) count in
  (StronglySorted Qlt positions <-> 350 < h) /\
  (350 < h -> Forall (fun p => 0 < p <= h) positions).
Proof.
  intros Hfh Hh Hcount positions. subst positions.
  rewrite (hinge_positions_positive st h) by assumption.
  assert (Hlast : (350 < h -> 150 < last_hinge h <= h) /\
                  (150 < last_hinge h -> 350 < h)).
  { destruct (last_hinge_cases h) as [[H ->] | [H ->]]; split; intros; lra. }
  destruct Hlast as [Hup Hdown].
  assert (count = 2 \/ count = 3 \/ count = 4)%Z as [-> | [-> | ->]] by lia;
    simpl; (split; [split |]).
  all: try (intros Hs; apply Hdown;
            repeat match goal with
                   | H : StronglySorted _ (_ :: _) |- _ =>
                       apply StronglySorted_inv in H; destruct H as [? H]
                   | H : Forall _ (_ :: _) |- _ =>
                       apply Forall_cons_iff in H; destruct H as [? H]
                   end; qdiv; lra).
  all: intros Hbig; specialize (Hup Hbig);
    repeat (constructor; try (qdiv; lra)).
Qed.

Lemma hinge_positions_increasing_iff_witness :
  let positions := _calculate_hinge_positions (Some st_min_plain) 4 in
  (StronglySorted Qlt positions <-> 350 < 840) /\
  (350 < 840 -> Forall (fun p => 0 < p <= 840) positions).
Proof.
  apply (hinge_positions_increasing_iff st_min_plain 840 4);
    [reflexivity | lra | lia].
Defined.

(** * Further properties of the placement solver *)

Lemma solver_ranges_In (pm1 h : Q) (zones : list interval) (r : interval) :
  In r (solver_ranges pm1 h zones) ->
  In r (_calculate_valid_ranges (pm1 + min_pm1_to_pm2) (h - pm4_half_height)
          zones) /\
  120 <= snd r - fst r.
Proof. unfold solver_ranges. apply large_enough_filter. Qed.

(** A position in a range the solver kept lies in the usable span and in no
    zone's interior. *)
Lemma solver_range_position (pm1 h p : Q) (zones : list interval) (r : interval) :
  In r (solver_ranges pm1 h zones) ->
  fst r <= p <= snd r ->
  pm1 + min_pm1_to_pm2 <= p <= h - pm4_half_height /\
  forall z, In z zones -> clear_of z p.
Proof.
  intros Hr Hp. apply solver_ranges_In in Hr. destruct Hr as [Hr _].
  pose proof (calculate_valid_ranges_within _ _ _ _ Hr) as Hin.
  unfold range_within in Hin. split; [lra |].
  intros z Hz. unfold clear_of.
  assert (Hspan : pm1 + min_pm1_to_pm2 < h - pm4_half_height) by lra.
  destruct (calculate_valid_ranges_avoid _ _ _ _ z Hspan Hr Hz); lra.
Qed.

(** X5.  A position that [_position_in_valid_ranges] accepts among the
    solver's valid ranges lies between PM1 + 202.5 and the frame height minus
    60, and is not strictly inside the zone of any obstacle. *)
Theorem accepted_position_clear (pm1 h p : Q) (zones : list interval) :
  _position_in_valid_ranges p (solver_ranges pm1 h zones) = true ->
  pm1 + 202.5 <= p <= h - 60 /\
  forall z, In z zones -> ~ (fst z < p < snd z).
Proof.
  intros H. apply position_in_valid_ranges_true in H.
  destruct H as (r & Hr & Hp).
  destruct (solver_range_position pm1 h p zones r Hr Hp) as [Hb Hc].
  pm_constants. split; [lra | exact Hc].
Qed.

Lemma accepted_position_clear_witness :
  -25 + 202.5 <= 700 <= 2100 - 60 /\
  forall z, In z [zone 170 450; zone 170 1050] -> ~ (fst z < 700 < snd z).
Proof.
  apply (accepted_position_clear (-25) 2100 700 [zone 170 450; zone 170 1050]).
  vm_compute. reflexivity.
Defined.

Lemma position_in_valid_ranges_intro (p : Q) (ranges : list interval)
    (r : interval) :
  In r ranges -> fst r <= p <= snd r ->
  _position_in_valid_ranges p ranges = true.
Proof.
  intros Hr [H1 H2]. unfold _position_in_valid_ranges.
  apply existsb_exists. exists r. split; [exact Hr |].
  apply andb_true_intro. split; now apply Qle_bool_iff.
Qed.

(** The run of the solver when its first choices for PM2 and PM3 are
    accepted. *)
Lemma pm_positions_first_choice (st : gmap string value) (h pm1 : Q)
    (zones : list interval) (last_range : interval) :
  get_dollar_variable st "frame_height" = VNum h ->
  0 < h ->
  pm1_anchor (get_dollar_variable st "pm1_position") = VNum pm1 ->
  pm_obstacles st = Ok zones ->
  last (solver_ranges pm1 h zones) = Some last_range ->
  pm1 + min_pm1_to_pm2 + min_pm2_to_pm3 <= snd last_range - min_pm3_to_pm4 ->
  _position_in_valid_ranges (pm1 + min_pm1_to_pm2)
    (solver_ranges pm1 h zones) = true ->
  _position_in_valid_ranges (snd last_range - min_pm3_to_pm4)
    (solver_ranges pm1 h zones) = true ->
  _calculate_pm_positions (Some st) =
    Ok [pm1; pm1 + min_pm1_to_pm2; snd last_range - min_pm3_to_pm4;
        snd last_range].
Proof.
  intros Hfh Hh Hpm1 Hobs Hlast Hroom Hin2 Hin3.
  assert (Hr : In last_range (solver_ranges pm1 h zones)).
  { apply last_Some in Hlast. destruct Hlast as [l' ->].
    apply in_or_app. right. now left. }
  apply solver_ranges_In in Hr. destruct Hr as [Hr _].
  apply calculate_valid_ranges_within in Hr. unfold range_within in Hr.
  unfold _calculate_pm_positions, pm_positions_body.
  rewrite Hfh, Hpm1, truthy_positive by assumption.
  cbn -[Qle_bool _calculate_valid_ranges pm_obstacles _fallback_pm_positions
        _optimize_pm2_pm3_positions].
  rewrite Qle_bool_positive by assumption.
  destruct (Qle_bool_case (h - pm4_half_height) (pm1 + min_pm1_to_pm2))
    as [[-> Hc] | [-> Hc]]; [lra |].
  rewrite Hobs.
  cbn -[Qle_bool _calculate_valid_ranges _fallback_pm_positions
        _optimize_pm2_pm3_positions].
  fold (solver_ranges pm1 h zones). rewrite Hlast.
  rewrite optimize_pm2_pm3_steps.
  destruct (Qlt_bool_case
              (snd last_range - min_pm3_to_pm4 - (pm1 + min_pm1_to_pm2))
              min_pm2_to_pm3) as [[-> Hc'] | [-> Hc']]; [lra |].
  unfold kept_apart, snapped_pm2, snapped_pm3. cbv zeta.
  rewrite Hin2, Hin3. cbn [negb].
  destruct (Qlt_bool_case
              (snd last_range - min_pm3_to_pm4 - (pm1 + min_pm1_to_pm2))
              min_pm2_to_pm3) as [[-> Hc''] | [-> Hc'']]; [lra |].
  reflexivity.
Qed.



(** X7.  Without an active obstacle, when the frame leaves room for the three
    minimum distances (PM1 + 567.5 <= frame height - 60), the solver returns
    PM1, PM1 + 202.5, frame height - 267.5 and frame height - 60. *)
Theorem pm_positions_without_obstacles (st : gmap string value) (h pm1 : Q) :
  get_dollar_variable st "frame_height" = VNum h ->
  0 < h ->
  pm1_anchor (get_dollar_variable st "pm1_position") = VNum pm1 ->
  pm_obstacles st = Ok [] ->
  pm1 + 567.5 <= h - 60 ->
  exists l,
    _calculate_pm_positions (Some st) = Ok l /\
    positions_eq l [pm1; pm1 + 202.5; h - 267.5; h - 60].
Proof.
  intros Hfh Hh Hpm1 Hobs Hroom. pm_constants.
  assert (Hranges : solver_ranges pm1 h [] =
                    [(pm1 + min_pm1_to_pm2, h - pm4_half_height)]).
  { unfold solver_ranges, _calculate_valid_ranges. simpl.
    destruct (Qlt_bool_case (pm1 + min_pm1_to_pm2) (h - pm4_half_height))
      as [[-> Hc] | [-> Hc]]; [| lra].
    simpl. unfold large_enough, PM_CONFIG.min_range_size. cbn [fst snd].
    destruct (Qle_bool_case 120 (h - pm4_half_height - (pm1 + min_pm1_to_pm2)))
      as [[-> Hc'] | [-> Hc']]; [reflexivity | lra]. }
  eexists. split.
  - apply (pm_positions_first_choice st h pm1 []
             (pm1 + min_pm1_to_pm2, h - pm4_half_height));
      try assumption.
    + now rewrite Hranges.
    + cbn [snd]. lra.
    + rewrite Hranges.
      eapply position_in_valid_ranges_intro; [now left |]. cbn [fst snd]. lra.
    + rewrite Hranges.
      eapply position_in_valid_ranges_intro; [now left |]. cbn [fst snd]. lra.
  - cbn [snd]. repeat constructor; lra.
Qed.

Lemma pm_positions_without_obstacles_witness :
  exists l,
    _calculate_pm_positions (Some st_plain) = Ok l /\
    positions_eq l [-25; -25 + 202.5; 2100 - 267.5; 2100 - 60].
Proof.
  apply (pm_positions_without_obstacles st_plain 2100 (-25));
    [reflexivity | lra | reflexivity | reflexivity | lra].
Defined.

(** X8.  Listing more obstacles never gains valid space: a point strictly
    inside a valid range for a list of obstacles is strictly inside a valid
    range for any list that holds no other obstacles; in particular the order
    of the obstacles does not matter. *)
Theorem valid_ranges_shrink (range_start range_end x : Q)
    (obstacles more : list interval) :
  range_start < range_end ->
  (forall o, In o obstacles -> In o more) ->
  inside_ranges (_calculate_valid_ranges range_start range_end more) x ->
  inside_ranges (_calculate_valid_ranges range_start range_end obstacles) x.
Proof.
  intros Hspan Hincl (r & Hr & Hx).
  pose proof (calculate_valid_ranges_within _ _ _ _ Hr) as Hin.
  unfold range_within in Hin.
  apply calculate_valid_ranges_cover; [lra |].
  intros o Ho.
  destruct (calculate_valid_ranges_avoid _ _ _ r o Hspan Hr (Hincl o Ho)); lra.
Qed.

Lemma valid_ranges_shrink_witness :
  inside_ranges (_calculate_valid_ranges 0 1000 [(100, 440)]) 500.
Proof.
  apply (valid_ranges_shrink 0 1000 500 [(100, 440)] [(600, 940); (100, 440)]).
  - lra.
  - intros o [<- | []]. right. now left.
  - exists (440, 600). split; [vm_compute; tauto | cbn [fst snd]; lra].
Defined.

(** X9.  On a span with [range_start < range_end] no valid range is returned
    exactly when the obstacle intervals cover every point strictly inside the
    span. *)
Theorem valid_ranges_empty_iff (range_start range_end : Q)
    (obstacles : list interval) :
  range_start < range_end ->
  (_calculate_valid_ranges range_start range_end obstacles = [] <->
   forall x, range_start < x < range_end ->
             exists o, In o obstacles /\ fst o <= x <= snd o).
Proof.
  intros Hspan. split.
  - intros Hnil x Hx.
    destruct (existsb (fun o => Qle_bool (fst o) x && Qle_bool x (snd o))
                obstacles) eqn:E.
    + apply existsb_exists in E. destruct E as (o & Ho & E).
      apply andb_prop in E. destruct E as [E1 E2].
      apply Qle_bool_iff in E1, E2. eauto.
    + exfalso.
      destruct (calculate_valid_ranges_cover range_start range_end obstacles x Hx)
        as (r & Hr & _); [| rewrite Hnil in Hr; contradiction].
      intros o Ho [H1 H2].
      assert (Hex : existsb (fun o => Qle_bool (fst o) x && Qle_bool x (snd o))
                      obstacles = true); [| congruence].
      apply existsb_exists. exists o. split; [exact Ho |].
      apply andb_true_intro. split; now apply Qle_bool_iff.
  - intros Hcover.
    destruct (_calculate_valid_ranges range_start range_end obstacles)
      as [| r rest] eqn:E; [reflexivity | exfalso].
    assert (Hr : In r (_calculate_valid_ranges range_start range_end obstacles))
      by (rewrite E; now left).
    pose proof (calculate_valid_ranges_within _ _ _ _ Hr) as Hin.
    unfold range_within in Hin.
    destruct (Hcover ((fst r + snd r) / 2)) as (o & Ho & Hx); [qdiv; lra |].
    destruct (calculate_valid_ranges_avoid _ _ _ r o Hspan Hr Ho); qdiv; lra.
Qed.

Lemma valid_ranges_empty_iff_witness :
  _calculate_valid_ranges 0 300 [(-20, 320)] = [] <->
  forall x, 0 < x < 300 -> exists o, In o [(-20, 320)] /\ fst o <= x <= snd o.
Proof.
  apply (valid_ranges_empty_iff 0 300 [(-20, 320)]). lra.
Defined.

(** X10.  The solver of a tab with a main window raises exactly when the PM1
    position is a text and the frame height is neither empty (unset, zero,
    empty text) nor a negative number; the exception is always [TypeError]. *)
Theorem pm_positions_raises_iff (st : gmap string value) :
  ((exists e, _calculate_pm_positions (Some st) = Raise e) <->
   (exists s, get_dollar_variable st "pm1_position" = VStr s) /\
   truthy (get_dollar_variable st "frame_height") = true /\
   ~ (exists h, get_dollar_variable st "frame_height" = VNum h /\ h <= 0)) /\
  (forall e, _calculate_pm_positions (Some st) = Raise e -> e = TypeError).
Proof.
  destruct (get_dollar_variable st "pm1_position") as [| pm1 | s] eqn:Hpm1.
  - destruct (pm_positions_no_exception st) as [l Hl]; [now rewrite Hpm1 |].
    rewrite Hl. split; [| discriminate].
    split; [intros [e H]; discriminate | intros ((s & H) & _); discriminate].
  - destruct (pm_positions_no_exception st) as [l Hl]; [now rewrite Hpm1 |].
    rewrite Hl. split; [| discriminate].
    split; [intros [e H]; discriminate | intros ((s & H) & _); discriminate].
  - unfold _calculate_pm_positions, pm_positions_body. rewrite Hpm1.
    destruct (get_dollar_variable st "frame_height") as [| h | s'] eqn:Hfh.
    + simpl. split; [| discriminate].
      split; [intros [e H]; discriminate | intros (_ & H & _); discriminate].
    + cbn [truthy negb py_le py_add py_sub num bind pm1_anchor
           _fallback_pm_positions].
      destruct (Qeq_bool_case h 0) as [[-> Hz] | [-> Hz]]; cbn [negb].
      { split; [| discriminate].
        split; [intros [e H]; discriminate | intros (_ & H & _); discriminate]. }
      destruct (Qle_bool_case h 0) as [[-> Hle] | [-> Hle]].
      { split; [| discriminate].
        split; [intros [e H]; discriminate |].
        intros (_ & _ & H). exfalso. apply H. eauto. }
      split; [| now intros e [= <-]].
      split; [| eauto].
      intros _. split; [eauto |]. split; [reflexivity |].
      intros (h' & [= <-] & H). lra.
    + cbn [truthy negb py_le py_add py_sub num bind pm1_anchor
           _fallback_pm_positions].
      destruct (negb (s' =? "")%string) eqn:Es; cbn [negb].
      * split; [| now intros e [= <-]].
        split; [| eauto].
        intros _. split; [eauto |]. split; [reflexivity |].
        intros (h' & H & _). discriminate.
      * split; [| discriminate].
        split; [intros [e H]; discriminate | intros (_ & H & _); discriminate].
Qed.

(** X11.  A type failure while the solver reads the frame height or the
    obstacles (a text as frame height, or a text as the position of an active
    lock or hinge) ends in the fallback positions for a numeric PM1 anchor. *)
Theorem pm_positions_type_failure_fallback (st : gmap string value) (pm1 : Q) :
  pm1_anchor (get_dollar_variable st "pm1_position") = VNum pm1 ->
  ((exists s, get_dollar_variable st "frame_height" = VStr s /\ s <> "") \/
   (exists h e, get_dollar_variable st "frame_height" = VNum h /\ 0 < h /\
                pm_obstacles st = Raise e)) ->
  exists l,
    _calculate_pm_positions (Some st) = Ok l /\
    positions_eq l [pm1; pm1 + 202.5; pm1 + 360; pm1 + 567.5].
Proof.
  intros Hpm1 Hcase.
  destruct (fallback_value pm1) as (l & Hl & Heq).
  exists l. split; [| exact Heq].
  unfold _calculate_pm_positions, pm_positions_body. rewrite Hpm1, Hl.
  destruct Hcase as [(s & -> & Hs) | (h & e & -> & Hh & Hobs)].
  - cbn [truthy]. apply String.eqb_neq in Hs. rewrite Hs. reflexivity.
  - rewrite truthy_positive by assumption.
    cbn [negb py_le py_add py_sub num bind].
    rewrite Qle_bool_positive by assumption.
    destruct (Qle_bool _ _); [reflexivity |].
    rewrite Hobs. reflexivity.
Qed.

Lemma pm_positions_type_failure_fallback_witness :
  exists l,
    _calculate_pm_positions
      (Some (<["lock_active" := VNum 1]>
               (<["lock_position" := VStr "abc"]> st_plain))) = Ok l /\
    positions_eq l [-25; -25 + 202.5; -25 + 360; -25 + 567.5].
Proof.
  apply (pm_positions_type_failure_fallback _ (-25)).
  - reflexivity.
  - right. exists 2100, TypeError. split; [reflexivity |].
    split; [lra | reflexivity].
Defined.

(** * Further properties of the validation *)

Lemma hinge_obstacles_positions (st : gmap string value) (indices : list nat) :
  hinge_obstacles st indices =
    (ps <- hinge_positions st indices ;; Ok (map (zone 170) ps)).
Proof.
  induction indices as [| i rest IH]; [reflexivity |].
  cbn [hinge_obstacles hinge_positions]. rewrite IH. unfold obstacle_of.
  destruct (active_position st _ _) as [p | e]; [| reflexivity].
  cbn [bind]. destruct (hinge_positions st rest) as [ps | e]; [| reflexivity].
  cbn [bind]. now rewrite map_app.
Qed.

(** The solver's zones are the intervals of 170 around the positions the
    validation collects. *)
Lemma pm_obstacles_positions (st : gmap string value) :
  pm_obstacles st =
    (ps <- validation_obstacles st ;; Ok (map (zone 170) ps)).
Proof.
  unfold pm_obstacles, validation_obstacles.
  rewrite hinge_obstacles_positions. unfold obstacle_of.
  destruct (active_position st _ _) as [p | e]; [| reflexivity].
  cbn [bind]. destruct (hinge_positions st _) as [ps | e]; [| reflexivity].
  cbn [bind]. now rewrite map_app.
Qed.

Lemma active_position_exn (st : gmap string value) (active position : string)
    (e : exn) :
  active_position st active position = Raise e -> e = TypeError.
Proof.
  unfold active_position.
  destruct (truthy (get_dollar_variable st active)); [| discriminate].
  destruct (get_dollar_variable st position) as [| q | s];
    cbn [truthy py_gt num bind].
  - discriminate.
  - destruct (negb (Qeq_bool q 0)); [| discriminate].
    destruct (Qlt_bool 0 q); discriminate.
  - destruct (negb (s =? "")%string); [| discriminate]. now intros [= <-].
Qed.

Lemma active_position_text (st : gmap string value) (active position s : string) :
  truthy (get_dollar_variable st active) = true ->
  get_dollar_variable st position = VStr s ->
  s <> "" ->
  active_position st active position = Raise TypeError.
Proof.
  intros Hactive Hpos Hs. unfold active_position. rewrite Hactive, Hpos.
  cbn [truthy]. apply String.eqb_neq in Hs. rewrite Hs. reflexivity.
Qed.

Lemma hinge_positions_raise (st : gmap string value) (indices : list nat)
    (i : nat) :
  In i indices ->
  active_position st (hinge_name i "_active") (hinge_name i "_position")
    = Raise TypeError ->
  hinge_positions st indices = Raise TypeError.
Proof.
  intros Hi Hraise. induction indices as [| j rest IH]; [contradiction |].
  cbn [hinge_positions].
  destruct (active_position st (hinge_name j "_active") _) as [p | e] eqn:Hj;
    cbn [bind].
  - destruct Hi as [-> | Hi]; [congruence |].
    now rewrite (IH Hi).
  - now rewrite (active_position_exn _ _ _ _ Hj).
Qed.

Lemma validation_obstacles_raise (st : gmap string value)
    (active position : string) :
  In (active, position) obstacle_names ->
  active_position st active position = Raise TypeError ->
  validation_obstacles st = Raise TypeError.
Proof.
  unfold obstacle_names, validation_obstacles.
  intros [[= <- <-] | Hin] Hraise; [now rewrite Hraise |].
  apply in_map_iff in Hin. destruct Hin as (i & [= <- <-] & Hi).
  destruct (active_position st "lock_active" "lock_position") as [p | e] eqn:Hl;
    cbn [bind].
  - now rewrite (hinge_positions_raise st (seq 0 4) i Hi Hraise).
  - now rewrite (active_position_exn _ _ _ _ Hl).
Qed.

Lemma nums_exn (vs : list value) (e : exn) : nums vs = Raise e -> e = TypeError.
Proof.
  induction vs as [| v rest IH]; cbn [nums]; [discriminate |].
  destruct v as [| q | s]; cbn [num bind]; try (now intros [= <-]).
  destruct (nums rest) as [qs | e']; cbn [bind]; [discriminate |].
  intros [= <-]. now apply IH.
Qed.

(** X12.  Where the solver recovers, the validation fails.  On a store with a
    positive frame height and a numeric PM1 anchor in which an active lock or
    hinge holds a non-empty text as its position, the solver returns the
    fallback positions (it reaches the obstacles inside its [try], or stops
    before them on a degenerate span), while [run_validation], which has no
    handler, raises [TypeError]. *)
Theorem text_obstacle_position_diverges (st : gmap string value) (h pm1 : Q)
    (active position s : string) :
  get_dollar_variable st "frame_height" = VNum h ->
  0 < h ->
  pm1_anchor (get_dollar_variable st "pm1_position") = VNum pm1 ->
  In (active, position) obstacle_names ->
  truthy (get_dollar_variable st active) = true ->
  get_dollar_variable st position = VStr s ->
  s <> "" ->
  (exists l,
     _calculate_pm_positions (Some st) = Ok l /\
     positions_eq l [pm1; pm1 + 202.5; pm1 + 360; pm1 + 567.5]) /\
  run_validation st = Raise TypeError.
Proof.
  intros Hfh Hh Hpm1 Hname Hactive Hpos Hs.
  pose proof (validation_obstacles_raise st active position Hname
                (active_position_text st active position s Hactive Hpos Hs))
    as Hraise.
  split.
  - destruct (fallback_value pm1) as (l & Hl & Heq).
    exists l. split; [| exact Heq].
    unfold _calculate_pm_positions, pm_positions_body. rewrite Hfh, Hpm1, Hl.
    rewrite truthy_positive by assumption.
    cbn [negb py_le py_add py_sub num bind].
    rewrite Qle_bool_positive by assumption.
    destruct (Qle_bool _ _); [reflexivity |].
    rewrite pm_obstacles_positions, Hraise. reflexivity.
  - unfold run_validation.
    destruct (nums _) as [pms | e] eqn:Hnums; cbn [bind].
    + now rewrite Hraise.
    + now rewrite (nums_exn _ _ Hnums).
Qed.

Lemma text_obstacle_position_diverges_witness :
  (exists l,
     _calculate_pm_positions (Some st_text_lock) = Ok l /\
     positions_eq l [-25; -25 + 202.5; -25 + 360; -25 + 567.5]) /\
  run_validation st_text_lock = Raise TypeError.
Proof.
  apply (text_obstacle_position_diverges st_text_lock 2100 (-25)
           "lock_active" "lock_position" "abc").
  - reflexivity.
  - lra.
  - reflexivity.
  - now left.
  - reflexivity.
  - reflexivity.
  - discriminate.
Defined.


Lemma near_b_true (p : Q) (obstacles : list Q) :
  near_b p obstacles = true <-> near_obstacle p obstacles.
Proof.
  unfold near_b, near_obstacle. rewrite existsb_exists.
  split; intros (o & Ho & H); exists o; (split; [exact Ho |]).
  - destruct (Qlt_bool_case (Qabs (p - o)) safety_distance) as [[_ Hc] | [E _]];
      [exact Hc | congruence].
  - destruct (Qlt_bool_case (Qabs (p - o)) safety_distance) as [[E _] | [_ Hc]];
      [exact E |].
    exfalso. change safety_distance with 170 in Hc. lra.
Qed.

Lemma check_obstacle_loop (i : nat) (p : Q) (obstacles : list Q) :
  forall errors : list bool,
    fold_left
      (fun (errors : list bool) (obstacle_pos : Q) =>
         if Qlt_bool (Qabs (p - obstacle_pos)) safety_distance
         then <[i := true]> errors
         else errors)
      obstacles errors =
    if near_b p obstacles then <[i := true]> errors else errors.
Proof.
  induction obstacles as [| o rest IH]; intros errors; [reflexivity |].
  cbn [fold_left near_b existsb]. rewrite IH. fold (near_b p rest).
  destruct (Qlt_bool (Qabs (p - o)) safety_distance); cbn [orb];
    [| reflexivity].
  rewrite list_insert_insert_eq. now destruct (near_b p rest).
Qed.

Lemma check_obstacles_four (p1 p2 p3 p4 : Q) (obstacles : list Q)
    (e1 e2 e3 e4 : bool) :
  check_obstacles [p1; p2; p3; p4] obstacles [e1; e2; e3; e4] =
    [near_b p1 obstacles || e1; near_b p2 obstacles || e2;
     near_b p3 obstacles || e3; near_b p4 obstacles || e4].
Proof.
  unfold check_obstacles. cbn [length seq combine fold_left fst snd].
  rewrite !check_obstacle_loop.
  destruct (near_b p1 obstacles), (near_b p2 obstacles),
    (near_b p3 obstacles), (near_b p4 obstacles); reflexivity.
Qed.

Lemma check_distances_four (p1 p2 p3 p4 : Q) :
  check_distances [p1; p2; p3; p4] [false; false; false; false] =
    [Qlt_bool (p2 - p1) min_pm1_to_pm2;
     Qlt_bool (p2 - p1) min_pm1_to_pm2 || Qlt_bool (p3 - p2) min_pm2_to_pm3;
     Qlt_bool (p3 - p2) min_pm2_to_pm3 || Qlt_bool (p4 - p3) min_pm3_to_pm4;
     Qlt_bool (p4 - p3) min_pm3_to_pm4].
Proof.
  unfold check_distances, distance_checks. cbn [fold_left nth].
  destruct (Qlt_bool (p2 - p1) min_pm1_to_pm2),
    (Qlt_bool (p3 - p2) min_pm2_to_pm3),
    (Qlt_bool (p4 - p3) min_pm3_to_pm4); reflexivity.
Qed.

Lemma Qlt_bool_true (x y : Q) : Qlt_bool x y = true <-> x < y.
Proof.
  destruct (Qlt_bool_case x y) as [[-> H] | [-> H]]; split; intros; auto;
    [discriminate | lra].
Qed.

Lemma check_height_four (h p1 p2 p3 p4 : Q) (e1 e2 e3 e4 : bool) :
  check_height h [p1; p2; p3; p4] [e1; e2; e3; e4] =
    [e1; e2; e3;
     (Qlt_bool 0 h && Qlt_bool (h - pm4_half_height) p4) || e4].
Proof.
  unfold check_height. cbn [nth].
  destruct (Qlt_bool 0 h), (Qlt_bool (h - pm4_half_height) p4); reflexivity.
Qed.




(** The first two clearances of any four positions the solver returns. *)
Lemma pm_positions_first_clearances (st : gmap string value)
    (pm1 pm2 pm3 pm4 : Q) :
  _calculate_pm_positions (Some st) = Ok [pm1; pm2; pm3; pm4] ->
  pm1 + min_pm1_to_pm2 <= pm2 /\ pm2 + min_pm2_to_pm3 <= pm3.
Proof.
  intros H. apply pm_positions_paths in H.
  destruct H as [H | (p & Hanchor & [Hfb | Hmain])]; [discriminate | |].
  - cbv [_fallback_pm_positions fallback_loop min_distances fold_left bind num
         fst snd app] in Hfb.
    injection Hfb as <- <- <- <-. split; lra.
  - destruct Hmain as (h & zones & last_range & q2 & q3 & Hfh & Hh & Hspan
                        & Hobs & Hlast & Hopt & Hl).
    injection Hl as <- <- <- ->.
    pose proof (pm_obstacles_wide st zones Hobs) as Hwide.
    apply (optimize_pm2_pm3_clearances pm1 (snd last_range)
             (solver_ranges pm1 h zones)); [| | exact Hopt].
    + apply List.Forall_forall. intros r Hr. apply large_enough_filter in Hr.
      destruct Hr as [Hr _]. apply calculate_valid_ranges_within in Hr.
      unfold range_within in Hr. lra.
    + apply StronglySorted_filter. now apply calculate_valid_ranges_apart.
Qed.

(** X14.  On exact inputs (multiples of 1/1024 up to a million, on which
    the source's float arithmetic does not round), the distance check of the
    validation applied to four positions the solver returns never flags PM1
    or PM2 on its own; it flags PM3 and PM4 together, exactly when PM4 is less
    than 207.5 after PM3.  The positions are multiples of 1/2048, so that the
    differences the check computes are exact. *)
Theorem solver_result_distance_flags (st : gmap string value)
    (pm1 pm2 pm3 pm4 : Q) :
  exact_inputs st ->
  _calculate_pm_positions (Some st) = Ok [pm1; pm2; pm3; pm4] ->
  Forall exact_result [pm1; pm2; pm3; pm4] /\
  exists b,
    check_distances [pm1; pm2; pm3; pm4] [false; false; false; false] =
      [false; false; b; b] /\
    (b = true <-> pm4 - pm3 < 207.5).
Proof.
  intros Hex H. split; [exact (pm_positions_exact st _ Hex H) |].
  apply pm_positions_first_clearances in H. destruct H as [H12 H23].
  exists (Qlt_bool (pm4 - pm3) min_pm3_to_pm4). split.
  - rewrite check_distances_four.
    destruct (Qlt_bool_case (pm2 - pm1) min_pm1_to_pm2) as [[-> Hc] | [-> Hc]];
      [lra |].
    destruct (Qlt_bool_case (pm3 - pm2) min_pm2_to_pm3) as [[-> Hc'] | [-> Hc']];
      [lra | reflexivity].
  - rewrite Qlt_bool_true. pm_constants. split; lra.
Qed.

Lemma solver_result_distance_flags_witness :
  Forall exact_result [-25; 710 # 4; 14660 # 8; 4080 # 2] /\
  exists b,
    check_distances [-25; 710 # 4; 14660 # 8; 4080 # 2]
      [false; false; false; false] = [false; false; b; b] /\
    (b = true <-> (4080 # 2) - (14660 # 8) < 207.5).
Proof.
  apply (solver_result_distance_flags st_plain).
  - exact st_plain_exact.
  - vm_compute. reflexivity.
Defined.

(** X15.  With a numeric frame width and door width the automatic lock offset
    and the automatic hinge offset are the same number: the frame width minus
    half the door width for a door width up to 45, and the frame width minus
    22.5 above; it is never below the frame width minus 22.5. *)
Theorem y_offset_value (st : gmap string value) (w d : Q) :
  get_dollar_variable st "frame_width" = VNum w ->
  get_dollar_variable st "door_width" = VNum d ->
  exists y,
    _calculate_lock_y_offset (Some st) = Some y /\
    _calculate_hinge_y_offset (Some st) = Some y /\
    (d <= 45 -> y == w - d / 2) /\
    (45 < d -> y == w - 22.5) /\
    w - 22.5 <= y.
Proof.
  intros Hw Hd.
  unfold _calculate_lock_y_offset, _calculate_hinge_y_offset,
    lock_y_offset_body, hinge_y_offset_body.
  rewrite Hw, Hd. cbn [is_none negb andb py_le py_div py_sub num bind].
  destruct (Qle_bool_case d 45) as [[-> Hc] | [-> Hc]]; eexists;
    (split; [reflexivity |]); (split; [reflexivity |]);
    (split; [intros; qdiv; lra |]); (split; intros; qdiv; lra).
Qed.

Lemma y_offset_value_witness :
  exists y,
    _calculate_lock_y_offset
      (Some {[ "frame_width" := VNum 50; "door_width" := VNum 40 ]}) = Some y /\
    _calculate_hinge_y_offset
      (Some {[ "frame_width" := VNum 50; "door_width" := VNum 40 ]}) = Some y /\
    (40 <= 45 -> y == 50 - 40 / 2) /\
    (45 < 40 -> y == 50 - 22.5) /\
    50 - 22.5 <= y.
Proof.
  apply (y_offset_value _ 50 40); reflexivity.
Defined.

(** X16.  The automatic lock offset of a tab with a main window is [None]
    exactly when the frame width or the door width is not a number (unset or a
    text); a width of zero is a number. *)
Theorem y_offset_none_iff (st : gmap string value) :
  _calculate_lock_y_offset (Some st) = None <->
  ~ (exists w d, get_dollar_variable st "frame_width" = VNum w /\
                 get_dollar_variable st "door_width" = VNum d).
Proof.
  unfold _calculate_lock_y_offset, lock_y_offset_body.
  destruct (get_dollar_variable st "frame_width") as [| w | sw],
    (get_dollar_variable st "door_width") as [| d | sd];
    cbn [is_none negb andb py_le py_div py_sub num bind];
    try destruct (Qle_bool d 45); cbn [py_sub num bind];
    (split;
     [first [discriminate | intros _ (w' & d' & H1 & H2); discriminate]
     | first [reflexivity | intros H; exfalso; apply H; eauto]]).
Qed.

(** * Height limits *)

Lemma get_update_eq (st : gmap string value) (name : string) (v : value) :
  get_dollar_variable (update_dollar_variable st name v) name = v.
Proof.
  unfold get_dollar_variable, update_dollar_variable.
  now rewrite lookup_insert_eq.
Qed.

Lemma get_update_ne (st : gmap string value) (name other : string) (v : value) :
  name <> other ->
  get_dollar_variable (update_dollar_variable st name v) other =
  get_dollar_variable st other.
Proof.
  intros Hne. unfold get_dollar_variable, update_dollar_variable.
  now rewrite lookup_insert_ne.
Qed.

(** The store [enforce_height_limits] leaves and the frame height in it. *)
Lemma enforce_height_cases (st : gmap string value) :
  exists st',
    enforce_height_limits (Some st) = Some st' /\
    ((st' = update_dollar_variable st "frame_height" (VNum MIN_FRAME_HEIGHT) /\
      ~ (exists h, get_dollar_variable st "frame_height" = VNum h /\
                   840 <= h)) \/
     (st' = update_dollar_variable st "frame_height" (VNum MAX_FRAME_HEIGHT) /\
      exists h, get_dollar_variable st "frame_height" = VNum h /\ 2500 < h) \/
     (st' = st /\
      exists h, get_dollar_variable st "frame_height" = VNum h /\
                840 <= h <= 2500)).
Proof.
  unfold enforce_height_limits, enforce_height_body,
    MIN_FRAME_HEIGHT, MAX_FRAME_HEIGHT.
  destruct (get_dollar_variable st "frame_height") as [| h | s] eqn:Hfh.
  - eexists. split; [reflexivity |]. left. split; [reflexivity |].
    intros (h & H & _). discriminate.
  - unfold py_or0. cbn [truthy].
    destruct (Qeq_bool_case h 0) as [[-> Hz] | [-> Hz]]; cbn [negb].
    + eexists. split; [reflexivity |]. left. split; [reflexivity |].
      intros (h' & [= <-] & H). lra.
    + cbn [py_lt py_gt num bind].
      destruct (Qlt_bool_case h 840) as [[-> Hlow] | [-> Hlow]].
      * eexists. split; [reflexivity |]. left. split; [reflexivity |].
        intros (h' & [= <-] & H). lra.
      * destruct (Qlt_bool_case 2500 h) as [[-> Hhigh] | [-> Hhigh]].
        -- eexists. split; [reflexivity |]. right. left.
           split; [reflexivity |]. eauto.
        -- eexists. split; [reflexivity |]. right. right.
           split; [reflexivity |]. exists h. split; [reflexivity | lra].
  - unfold py_or0. cbn [truthy].
    destruct (negb (s =? "")%string); cbn [py_lt py_gt num bind];
      eexists; (split; [reflexivity |]); left; (split; [reflexivity |]);
      intros (h & H & _); discriminate.
Qed.

(** X17.  After [enforce_height_limits] the frame height is a number between
    840 and 2500, whatever it was (unset, a text, out of range); every other
    variable keeps its value, a height that already was in range leaves the
    store as it is, and enforcing the limits a second time changes nothing. *)
Theorem enforce_height_limits_range (st : gmap string value) :
  exists st' h,
    enforce_height_limits (Some st) = Some st' /\
    get_dollar_variable st' "frame_height" = VNum h /\
    840 <= h <= 2500 /\
    (forall name, name <> "frame_height" ->
                  get_dollar_variable st' name = get_dollar_variable st name) /\
    (forall h0, get_dollar_variable st "frame_height" = VNum h0 ->
                840 <= h0 <= 2500 -> st' = st) /\
    enforce_height_limits (Some st') = Some st'.
Proof.
  destruct (enforce_height_cases st)
    as (st' & Hrun & [[-> Hlow] | [[-> Hhigh] | [-> Hin]]]).
  - exists (update_dollar_variable st "frame_height" (VNum MIN_FRAME_HEIGHT)),
      MIN_FRAME_HEIGHT.
    split; [exact Hrun |]. split; [apply get_update_eq |].
    split; [unfold MIN_FRAME_HEIGHT; lra |].
    split; [intros name Hne; now apply get_update_ne |].
    split; [intros h0 H0 Hr; exfalso; apply Hlow; exists h0; split; [exact H0 | lra] |].
    destruct (enforce_height_cases
                (update_dollar_variable st "frame_height" (VNum MIN_FRAME_HEIGHT)))
      as (st2 & Hrun2 & [[_ H] | [[_ H] | [-> _]]]); [| | exact Hrun2].
    + exfalso. apply H. exists MIN_FRAME_HEIGHT.
      split; [apply get_update_eq | unfold MIN_FRAME_HEIGHT; lra].
    + exfalso. destruct H as (h & H & Hh). rewrite get_update_eq in H.
      injection H as <-. unfold MIN_FRAME_HEIGHT in Hh. lra.
  - exists (update_dollar_variable st "frame_height" (VNum MAX_FRAME_HEIGHT)),
      MAX_FRAME_HEIGHT.
    split; [exact Hrun |]. split; [apply get_update_eq |].
    split; [unfold MAX_FRAME_HEIGHT; lra |].
    split; [intros name Hne; now apply get_update_ne |].
    split.
    { intros h0 H0 Hr. exfalso. destruct Hhigh as (h & H & Hh).
      rewrite H0 in H. injection H as <-. lra. }
    destruct (enforce_height_cases
                (update_dollar_variable st "frame_height" (VNum MAX_FRAME_HEIGHT)))
      as (st2 & Hrun2 & [[_ H] | [[_ H] | [-> _]]]); [| | exact Hrun2].
    + exfalso. apply H. exists MAX_FRAME_HEIGHT.
      split; [apply get_update_eq | unfold MAX_FRAME_HEIGHT; lra].
    + exfalso. destruct H as (h & H & Hh). rewrite get_update_eq in H.
      injection H as <-. unfold MAX_FRAME_HEIGHT in Hh. lra.
  - destruct Hin as (h & Hfh & Hh). exists st, h.
    split; [exact Hrun |]. split; [exact Hfh |]. split; [exact Hh |].
    split; [reflexivity |]. split; [reflexivity |]. exact Hrun.
Qed.

Lemma pm_positions_not_empty (st : gmap string value) (h pm1 : Q) :
  get_dollar_variable st "frame_height" = VNum h ->
  0 < h ->
  pm1_anchor (get_dollar_variable st "pm1_position") = VNum pm1 ->
  exists pm2 pm3 pm4,
    _calculate_pm_positions (Some st) = Ok [pm1; pm2; pm3; pm4].
Proof.
  intros Hfh Hh Hpm1.
  destruct (pm_positions_shape st pm1 Hpm1) as [Hnil | H]; [| exact H].
  exfalso. revert Hnil.
  destruct (fallback_shape pm1) as (f2 & f3 & f4 & Hf).
  unfold _calculate_pm_positions, pm_positions_body.
  rewrite Hfh, Hpm1, Hf, truthy_positive by assumption.
  cbn [negb py_le py_add py_sub num bind].
  rewrite Qle_bool_positive by assumption.
  destruct (Qle_bool (h - pm4_half_height) _); [discriminate |].
  destruct (pm_obstacles st); cbn [bind]; [| discriminate].
  destruct (last _); [| discriminate].
  destruct (_optimize_pm2_pm3_positions _ _ _). discriminate.
Qed.

(** X18.  Once the height limits are enforced both automatic calculations
    give full results: for a hinge count between 1 and 4 the hinge routine
    returns that many positions, strictly increasing and within the frame,
    and for a PM1 position that is a number or unset the solver returns four
    positions. *)
Theorem enforced_height_supports_calculations
    (st st' : gmap string value) (count : Z) :
  enforce_height_limits (Some st) = Some st' ->
  (1 <= count <= 4)%Z ->
  exists h,
    get_dollar_variable st' "frame_height" = VNum h /\
    length (_calculate_hinge_positions (Some st') count) = Z.to_nat count /\
    StronglySorted Qlt (_calculate_hinge_positions (Some st') count) /\
    Forall (fun p => 0 <= p <= h) (_calculate_hinge_positions (Some st') count) /\
    (numeric_or_unset (get_dollar_variable st "pm1_position") ->
     exists pm1 pm2 pm3 pm4,
       _calculate_pm_positions (Some st') = Ok [pm1; pm2; pm3; pm4]).
Proof.
  intros Hrun Hcount.
  assert (Hst' : exists h, get_dollar_variable st' "frame_height" = VNum h /\
                           840 <= h <= 2500 /\
                           get_dollar_variable st' "pm1_position" =
                           get_dollar_variable st "pm1_position").
  { destruct (enforce_height_cases st)
      as (st2 & Hrun2 & [[-> _] | [[-> _] | [-> Hin]]]);
      rewrite Hrun in Hrun2; injection Hrun2 as ->.
    - exists MIN_FRAME_HEIGHT. rewrite get_update_eq.
      split; [reflexivity |]. split; [unfold MIN_FRAME_HEIGHT; lra |].
      now apply get_update_ne.
    - exists MAX_FRAME_HEIGHT. rewrite get_update_eq.
      split; [reflexivity |]. split; [unfold MAX_FRAME_HEIGHT; lra |].
      now apply get_update_ne.
    - destruct Hin as (h & Hfh & Hh). exists h. auto. }
  destruct Hst' as (h & Hfh & Hh & Hpm).
  exists h. split; [exact Hfh |].
  rewrite (hinge_positions_positive st' h) by (assumption || lra).
  destruct (last_hinge_bounds h) as [Hlo Hhi]; [lra |].
  assert (Hhinges :
    forall l, l = (if (count <=? 0)%Z then []
      else if (count =? 1)%Z then [h / 2]
      else if (count =? 2)%Z then [150; last_hinge h]
      else if (count =? 3)%Z then
        [150; 150 + (last_hinge h - 150) / 2.5; last_hinge h]
      else if (count =? 4)%Z then
        [150; 150 + (last_hinge h - 150) / 4.75;
         150 + (last_hinge h - 150) / 4.75 + 1.5 * ((last_hinge h - 150) / 4.75);
         last_hinge h]
      else []) ->
      length l = Z.to_nat count /\ StronglySorted Qlt l /\
      Forall (fun p => 0 <= p <= h) l).
  { intros l ->.
    assert (count = 1 \/ count = 2 \/ count = 3 \/ count = 4)%Z
      as [-> | [-> | [-> | ->]]] by lia; simpl;
      (split; [reflexivity | split]);
      repeat (constructor; try (qdiv; lra)). }
  destruct (Hhinges _ eq_refl) as (H1 & H2 & H3).
  split; [exact H1 |]. split; [exact H2 |]. split; [exact H3 |].
  intros Hnum. rewrite <- Hpm in Hnum.
  destruct (pm1_anchor_numeric _ Hnum) as [pm1 Hanchor].
  exists pm1. apply (pm_positions_not_empty st' h pm1); [exact Hfh | lra | exact Hanchor].
Qed.

Lemma enforced_height_supports_calculations_witness :
  exists h,
    get_dollar_variable
      (update_dollar_variable st_zero_height "frame_height" (VNum MIN_FRAME_HEIGHT))
      "frame_height" = VNum h /\
    length (_calculate_hinge_positions
              (Some (update_dollar_variable st_zero_height "frame_height"
                       (VNum MIN_FRAME_HEIGHT))) 3) = Z.to_nat 3 /\
    StronglySorted Qlt
      (_calculate_hinge_positions
         (Some (update_dollar_variable st_zero_height "frame_height"
                  (VNum MIN_FRAME_HEIGHT))) 3) /\
    Forall (fun p => 0 <= p <= h)
      (_calculate_hinge_positions
         (Some (update_dollar_variable st_zero_height "frame_height"
                  (VNum MIN_FRAME_HEIGHT))) 3) /\
    (numeric_or_unset (get_dollar_variable st_zero_height "pm1_position") ->
     exists pm1 pm2 pm3 pm4,
       _calculate_pm_positions
         (Some (update_dollar_variable st_zero_height "frame_height"
                  (VNum MIN_FRAME_HEIGHT))) = Ok [pm1; pm2; pm3; pm4]).
Proof.
  apply (enforced_height_supports_calculations st_zero_height); [reflexivity | lia].
Defined.

(** * Batches of changes *)

Lemma update_dollar_variables_app (st : gmap string value)
    (c1 c2 : list (string * value)) :
  update_dollar_variables st (c1 ++ c2) =
  update_dollar_variables (update_dollar_variables st c1) c2.
Proof. unfold update_dollar_variables. apply fold_left_app. Qed.

(** A batch leaves the variables it does not name as they are. *)
Lemma update_dollar_variables_other (changes : list (string * value))
    (name : string) :
  forall st,
    ~ In name (map fst changes) ->
    get_dollar_variable (update_dollar_variables st changes) name =
    get_dollar_variable st name.
Proof.
  induction changes as [| [k v] rest IH]; intros st Hnot; [reflexivity |].
  cbn [update_dollar_variables fold_left fst snd].
  fold (update_dollar_variables (update_dollar_variable st k v) rest).
  rewrite IH by (intros H; apply Hnot; now right).
  apply get_update_ne. intros ->. apply Hnot. now left.
Qed.

(** A variable named once in a batch gets the value given there. *)
Lemma update_dollar_variables_once (before after : list (string * value))
    (name : string) (v : value) (st : gmap string value) :
  ~ In name (map fst after) ->
  get_dollar_variable
    (update_dollar_variables st (before ++ (name, v) :: after)) name = v.
Proof.
  intros Hnot. rewrite update_dollar_variables_app.
  cbn [update_dollar_variables fold_left fst snd].
  fold (update_dollar_variables
          (update_dollar_variable (update_dollar_variables st before) name v)
          after).
  rewrite update_dollar_variables_other by exact Hnot.
  apply get_update_eq.
Qed.

(** * Hinge count *)

Lemma hinge_name_inj (i j : nat) (s1 s2 : string) :
  (i < 4)%nat -> (j < 4)%nat ->
  hinge_name i s1 = hinge_name j s2 -> i = j /\ s1 = s2.
Proof.
  intros Hi Hj.
  assert (i = 0 \/ i = 1 \/ i = 2 \/ i = 3)%nat as [-> | [-> | [-> | ->]]] by lia;
    assert (j = 0 \/ j = 1 \/ j = 2 \/ j = 3)%nat as [-> | [-> | [-> | ->]]] by lia;
    cbn; intros H; inversion H; auto.
Qed.

Lemma new_hinge_changes_keys (st : gmap string value) (indices : list nat)
    (name : string) :
  In name (map fst (new_hinge_changes st indices)) ->
  exists i, In i indices /\ name = hinge_name i "_active".
Proof.
  unfold new_hinge_changes. rewrite in_map_iff.
  intros ([k v] & <- & H). apply in_flat_map in H.
  destruct H as (i & Hi & H). exists i. split; [exact Hi |].
  destruct (_ || _); [| contradiction].
  destruct H as [[= <- _] | []]. reflexivity.
Qed.

Lemma unused_hinge_changes_keys (indices : list nat) (name : string) :
  In name (map fst (unused_hinge_changes indices)) ->
  exists i, In i indices /\
            (name = hinge_name i "_active" \/ name = hinge_name i "_position").
Proof.
  unfold unused_hinge_changes. rewrite in_map_iff.
  intros ([k v] & <- & H). apply in_flat_map in H.
  destruct H as (i & Hi & H). exists i. split; [exact Hi |].
  destruct H as [[= <- _] | [[= <- _] | []]]; auto.
Qed.

(** The value a batch of [unused_hinge_changes] leaves for the hinges it
    names. *)
Lemma unused_hinge_changes_get (indices : list nat) (i : nat) :
  forall st,
    Forall (fun j => (j < 4)%nat) indices ->
    In i indices ->
    get_dollar_variable
      (update_dollar_variables st (unused_hinge_changes indices))
      (hinge_name i "_active") = VNum 0 /\
    get_dollar_variable
      (update_dollar_variables st (unused_hinge_changes indices))
      (hinge_name i "_position") = VNum 0.
Proof.
  induction indices as [| j rest IH]; intros st Hall Hi; [contradiction |].
  apply Forall_cons_iff in Hall. destruct Hall as [Hj Hall].
  cbn [unused_hinge_changes flat_map]. fold (unused_hinge_changes rest).
  rewrite update_dollar_variables_app.
  destruct (in_dec Nat.eq_dec i rest) as [Hin | Hnot].
  - now apply IH.
  - destruct Hi as [-> | Hi]; [| contradiction].
    assert (Hkeys : forall s, ~ In (hinge_name i s)
                                   (map fst (unused_hinge_changes rest))).
    { intros s H. apply unused_hinge_changes_keys in H.
      destruct H as (k & Hk & H).
      assert (Hk4 : (k < 4)%nat)
        by (rewrite List.Forall_forall in Hall; now apply Hall).
      destruct H as [H | H]; apply hinge_name_inj in H; try assumption;
        destruct H as [-> _]; contradiction. }
    split; rewrite update_dollar_variables_other by apply Hkeys;
      cbn [update_dollar_variables fold_left fst snd].
    + rewrite get_update_ne, get_update_eq; [reflexivity |].
      intros H. apply hinge_name_inj in H; [| assumption | assumption].
      destruct H as [_ H]. discriminate.
    + apply get_update_eq.
Qed.

Lemma hinge_obstacles_app (st : gmap string value) (l1 l2 : list nat) :
  hinge_obstacles st (l1 ++ l2) =
    (z1 <- hinge_obstacles st l1 ;;
     z2 <- hinge_obstacles st l2 ;; Ok (z1 ++ z2)).
Proof.
  induction l1 as [| i rest IH]; cbn [app hinge_obstacles bind].
  - destruct (hinge_obstacles st l2); reflexivity.
  - destruct (obstacle_of st _ _ _) as [z | e]; cbn [bind]; [| reflexivity].
    rewrite IH. destruct (hinge_obstacles st rest) as [zs | e]; cbn [bind];
      [| reflexivity].
    destruct (hinge_obstacles st l2) as [zs' | e]; cbn [bind]; [| reflexivity].
    now rewrite app_assoc.
Qed.

Lemma hinge_obstacles_inactive (st : gmap string value) (indices : list nat) :
  (forall i, In i indices ->
             get_dollar_variable st (hinge_name i "_active") = VNum 0) ->
  hinge_obstacles st indices = Ok [].
Proof.
  induction indices as [| i rest IH]; intros Hoff; [reflexivity |].
  cbn [hinge_obstacles]. unfold obstacle_of, active_position.
  rewrite (Hoff i) by now left. cbn [truthy bind].
  change (negb (Qeq_bool 0 0)) with false. cbn [bind map].
  rewrite IH by (intros j Hj; apply Hoff; now right). reflexivity.
Qed.

(** The store after the batch of hinge changes for a count from 0 to 4. *)
Lemma hinge_count_changes_store (st st' : gmap string value) (count : nat) :
  (count <= 4)%nat ->
  st' = update_dollar_variables st (hinge_count_changes st count) ->
  (forall i, (count <= i < 4)%nat ->
     get_dollar_variable st' (hinge_name i "_active") = VNum 0 /\
     get_dollar_variable st' (hinge_name i "_position") = VNum 0) /\
  hinge_obstacles st' (seq 0 4) = hinge_obstacles st' (seq 0 count) /\
  (forall i, (i < count)%nat ->
     get_dollar_variable st' (hinge_name i "_position") =
       get_dollar_variable st (hinge_name i "_position") /\
     get_dollar_variable st' (hinge_name i "_active") =
       (if is_none (get_dollar_variable st (hinge_name i "_active"))
           || py_eq0 (get_dollar_variable st (hinge_name i "_active"))
        then VNum 1
        else get_dollar_variable st (hinge_name i "_active"))) /\
  (forall name,
     (forall i, (i < 4)%nat -> name <> hinge_name i "_active" /\
                               name <> hinge_name i "_position") ->
     get_dollar_variable st' name = get_dollar_variable st name).
Proof.
  intros Hcount ->. unfold hinge_count_changes.
  rewrite update_dollar_variables_app.
  set (st1 := update_dollar_variables st (new_hinge_changes st (seq 0 count))).
  assert (Hrange : Forall (fun j => (j < 4)%nat) (seq count (4 - count))).
  { apply List.Forall_forall. intros j Hj. apply in_seq in Hj. lia. }
  assert (Hoff : forall i, (count <= i < 4)%nat ->
     get_dollar_variable
       (update_dollar_variables st1 (unused_hinge_changes (seq count (4 - count))))
       (hinge_name i "_active") = VNum 0 /\
     get_dollar_variable
       (update_dollar_variables st1 (unused_hinge_changes (seq count (4 - count))))
       (hinge_name i "_position") = VNum 0).
  { intros i Hi. apply unused_hinge_changes_get; [exact Hrange |].
    apply in_seq. lia. }
  assert (Hunused : forall i s, (i < count)%nat ->
     ~ In (hinge_name i s)
          (map fst (unused_hinge_changes (seq count (4 - count))))).
  { intros i s Hi H. apply unused_hinge_changes_keys in H.
    destruct H as (k & Hk & H). apply in_seq in Hk.
    destruct H as [H | H]; apply hinge_name_inj in H; lia. }
  split; [exact Hoff |]. split; [| split].
  - replace (seq 0 4) with (seq 0 count ++ seq count (4 - count))
      by (rewrite <- seq_app; f_equal; lia).
    rewrite hinge_obstacles_app.
    rewrite (hinge_obstacles_inactive _ (seq count (4 - count))).
    + destruct (hinge_obstacles _ (seq 0 count)) as [zs | e]; cbn [bind];
        [now rewrite app_nil_r | reflexivity].
    + intros i Hi. apply in_seq in Hi.
      destruct (Hoff i) as [H _]; [lia | exact H].
  - intros i Hi. rewrite !update_dollar_variables_other by now apply Hunused.
    subst st1. split.
    + apply update_dollar_variables_other. intros H.
      apply new_hinge_changes_keys in H. destruct H as (k & Hk & H).
      apply in_seq in Hk. apply hinge_name_inj in H; [| lia | lia].
      destruct H as [_ H]. discriminate.
    + assert (Hsplit : seq 0 count = seq 0 i ++ i :: seq (S i) (count - S i)).
      { replace count with (i + S (count - S i))%nat at 1 by lia.
        rewrite seq_app. reflexivity. }
      rewrite Hsplit. unfold new_hinge_changes.
      rewrite flat_map_app. cbn [flat_map].
      fold (new_hinge_changes st (seq 0 i)).
      fold (new_hinge_changes st (seq (S i) (count - S i))).
      assert (Hlater : ~ In (hinge_name i "_active")
                (map fst (new_hinge_changes st (seq (S i) (count - S i))))).
      { intros H. apply new_hinge_changes_keys in H. destruct H as (k & Hk & H).
        apply in_seq in Hk. apply hinge_name_inj in H; lia. }
      assert (Hearlier : ~ In (hinge_name i "_active")
                (map fst (new_hinge_changes st (seq 0 i)))).
      { intros H. apply new_hinge_changes_keys in H. destruct H as (k & Hk & H).
        apply in_seq in Hk. apply hinge_name_inj in H; lia. }
      destruct (_ || _).
      * cbn [app]. now apply update_dollar_variables_once.
      * cbn [app]. rewrite update_dollar_variables_other; [reflexivity |].
        rewrite map_app, in_app_iff. tauto.
  - intros name Hname.
    rewrite update_dollar_variables_other.
    + subst st1. apply update_dollar_variables_other. intros H.
      apply new_hinge_changes_keys in H. destruct H as (k & Hk & ->).
      apply in_seq in Hk. destruct (Hname k) as [H _]; [lia | now apply H].
    + intros H. apply unused_hinge_changes_keys in H.
      destruct H as (k & Hk & H). apply in_seq in Hk.
      destruct (Hname k) as [H1 H2]; [lia |]. destruct H as [-> | ->]; auto.
Qed.


(** * Execution order *)

Lemma order_map_from_notin (order : list string) (item : string) :
  forall idx order_map,
    ~ In item order ->
    order_map_from idx order order_map !! item = order_map !! item.
Proof.
  induction order as [| item_id rest IH]; intros idx order_map Hnot;
    [reflexivity |].
  cbn [order_map_from]. rewrite IH by (intros H; apply Hnot; now right).
  apply lookup_insert_ne. intros ->. apply Hnot. now left.
Qed.

(** The entry of an item is one more than the index of its last occurrence. *)
Lemma order_map_from_last (order : list string) (item : string) :
  forall idx order_map j,
    order !! j = Some item ->
    ~ In item (drop (S j) order) ->
    order_map_from idx order order_map !! item = Some (S (idx + j)).
Proof.
  induction order as [| item_id rest IH]; intros idx order_map j Hj Hlast;
    [discriminate |].
  cbn [order_map_from]. destruct j as [| j].
  - injection Hj as ->. cbn [drop] in Hlast.
    change (drop 0 rest) with rest in Hlast.
    rewrite order_map_from_notin by exact Hlast.
    rewrite lookup_insert_eq. do 2 f_equal. lia.
  - rewrite (IH (S idx) _ j); [do 2 f_equal; lia | exact Hj | exact Hlast].
Qed.

Lemma order_rank_last (order : list string) (item : string) (j : nat) :
  order !! j = Some item ->
  ~ In item (drop (S j) order) ->
  order_rank order item = S j.
Proof.
  intros Hj Hlast. unfold order_rank.
  now rewrite (order_map_from_last order item 0 ∅ j Hj Hlast).
Qed.

Lemma order_rank_absent (order : list string) (item : string) :
  ~ In item order -> order_rank order item = 0%nat.
Proof.
  intros Hnot. unfold order_rank.
  now rewrite order_map_from_notin by exact Hnot.
Qed.

Lemma order_changes_get (st : gmap string value) (order : list string) :
  get_dollar_variable (update_dollar_variables st (order_changes order))
    "lock_order" = order_value (order_rank order "lock") /\
  forall i, (i < 4)%nat ->
    get_dollar_variable (update_dollar_variables st (order_changes order))
      (hinge_name i "_order") = order_value (order_rank order (hinge_name i "")).
Proof.
  unfold order_changes. cbn [map seq]. unfold update_dollar_variables.
  cbn [fold_left fst snd]. split.
  - rewrite !get_update_ne by (cbn; discriminate). apply get_update_eq.
  - intros i Hi.
    assert (i = 0 \/ i = 1 \/ i = 2 \/ i = 3)%nat as [-> | [-> | [-> | ->]]]
      by lia;
      repeat (rewrite get_update_ne
                by (intros H; apply hinge_name_inj in H; lia));
      apply get_update_eq.
Qed.

Lemma order_changes_keys (order : list string) (name : string) :
  In name (map fst (order_changes order)) ->
  name = "lock_order" \/ exists i, (i < 4)%nat /\ name = hinge_name i "_order".
Proof.
  unfold order_changes. cbn [map seq fst In].
  intros [<- | [<- | [<- | [<- | [<- | []]]]]]; [now left | right ..];
    [exists 0%nat | exists 1%nat | exists 2%nat | exists 3%nat];
    (split; [lia | reflexivity]).
Qed.

(** X20.  When the order widget reports an order while no automatic
    calculation runs, the order variable of the lock and of each of the four
    hinges becomes one more than the index of the item's last occurrence in
    the order, and 0 for an item the order does not list; no other variable
    is touched and the tab is otherwise as before. *)
Theorem on_order_changed_ranks (t : tab) (st : gmap string value)
    (order : list string) :
  tab_store t = Some st ->
  _auto_calculation_running t = false ->
  exists st',
    on_order_changed t order = with_store t (Some st') false /\
    (forall j, order !! j = Some "lock" -> ~ In "lock" (drop (S j) order) ->
       get_dollar_variable st' "lock_order" = order_value (S j)) /\
    (~ In "lock" order ->
       get_dollar_variable st' "lock_order" = order_value 0) /\
    (forall i j, (i < 4)%nat -> order !! j = Some (hinge_name i "") ->
       ~ In (hinge_name i "") (drop (S j) order) ->
       get_dollar_variable st' (hinge_name i "_order") = order_value (S j)) /\
    (forall i, (i < 4)%nat -> ~ In (hinge_name i "") order ->
       get_dollar_variable st' (hinge_name i "_order") = order_value 0) /\
    (forall name, name <> "lock_order" ->
       (forall i, (i < 4)%nat -> name <> hinge_name i "_order") ->
       get_dollar_variable st' name = get_dollar_variable st name).
Proof.
  intros Hst Hrun.
  exists (update_dollar_variables st (order_changes order)).
  destruct (order_changes_get st order) as [Hlock Hhinge].
  unfold on_order_changed. rewrite Hst, Hrun.
  split; [reflexivity |]. split; [| split; [| split; [| split]]].
  - intros j Hj Hlast. now rewrite Hlock, (order_rank_last order "lock" j).
  - intros Hnot. now rewrite Hlock, order_rank_absent.
  - intros i j Hi Hj Hlast.
    now rewrite (Hhinge i Hi), (order_rank_last order _ j).
  - intros i Hi Hnot. now rewrite (Hhinge i Hi), order_rank_absent.
  - intros name Hlock' Hhinge'. apply update_dollar_variables_other.
    intros H. apply order_changes_keys in H.
    destruct H as [-> | (i & Hi & ->)]; [now apply Hlock' |].
    now apply (Hhinge' i).
Qed.

Lemma on_order_changed_ranks_witness :
  exists st',
    on_order_changed
      {| tab_store := Some st_plain; _auto_calculation_running := false;
         lock_auto_check := true; lock_y_auto_check := true;
         hinge_auto_check := true; hinge_y_auto_check := true;
         pm_auto_check := true; hinge_count_spin := 2 |}
      ["hinge2"; "lock"; "hinge1"] =
    with_store
      {| tab_store := Some st_plain; _auto_calculation_running := false;
         lock_auto_check := true; lock_y_auto_check := true;
         hinge_auto_check := true; hinge_y_auto_check := true;
         pm_auto_check := true; hinge_count_spin := 2 |}
      (Some st') false /\
    (forall j, ["hinge2"; "lock"; "hinge1"] !! j = Some "lock" ->
       ~ In "lock" (drop (S j) ["hinge2"; "lock"; "hinge1"]) ->
       get_dollar_variable st' "lock_order" = order_value (S j)) /\
    (~ In "lock" ["hinge2"; "lock"; "hinge1"] ->
       get_dollar_variable st' "lock_order" = order_value 0) /\
    (forall i j, (i < 4)%nat ->
       ["hinge2"; "lock"; "hinge1"] !! j = Some (hinge_name i "") ->
       ~ In (hinge_name i "") (drop (S j) ["hinge2"; "lock"; "hinge1"]) ->
       get_dollar_variable st' (hinge_name i "_order") = order_value (S j)) /\
    (forall i, (i < 4)%nat ->
       ~ In (hinge_name i "") ["hinge2"; "lock"; "hinge1"] ->
       get_dollar_variable st' (hinge_name i "_order") = order_value 0) /\
    (forall name, name <> "lock_order" ->
       (forall i, (i < 4)%nat -> name <> hinge_name i "_order") ->
       get_dollar_variable st' name = get_dollar_variable st_plain name).
Proof.
  apply (on_order_changed_ranks _ st_plain); reflexivity.
Defined.

(** * The automatic calculations *)

Section AutoFootprint.

Variable round1 : Q -> Q.

Lemma position_changes_keys (name : nat -> string) (positions : list Q)
    (k : string) :
  In k (map fst (position_changes round1 name positions)) ->
  In k (map name (seq 0 4)).
Proof.
  unfold position_changes. rewrite in_map_iff.
  intros ([k' v] & <- & H). apply in_flat_map in H.
  destruct H as ([i p] & _ & H). cbn [fst snd] in H.
  destruct (Nat.ltb_spec i 4) as [Hi | Hi]; [| contradiction].
  destruct H as [[= <- _] | []]. cbn [fst].
  apply in_map, in_seq. lia.
Qed.

Lemma offset_changes_keys (name : string) (offset : option Q) (k : string) :
  In k (map fst (offset_changes round1 name offset)) -> k = name.
Proof.
  destruct offset; cbn; [intros [<- | []]; reflexivity | contradiction].
Qed.

Lemma auto_changes_keys (t : tab) (changes : list (string * value))
    (k : string) :
  auto_changes round1 t = Ok changes ->
  In k (map fst changes) ->
  In k (enabled_outputs t).
Proof.
  unfold auto_changes, enabled_outputs.
  destruct (pm_auto_check t).
  - destruct (_calculate_pm_positions (tab_store t)) as [pms | e];
      cbn [bind]; [| discriminate].
    intros [= <-]. rewrite !map_app, !in_app_iff.
    intros [H | [H | [H | [H | H]]]].
    + left. destruct (lock_auto_check t); exact H.
    + right; left. destruct (lock_y_auto_check t); [| exact H].
      apply offset_changes_keys in H. now left.
    + right; right; left. destruct (hinge_auto_check t); [| exact H].
      now apply position_changes_keys in H.
    + right; right; right; left. destruct (hinge_y_auto_check t); [| exact H].
      apply offset_changes_keys in H. now left.
    + right; right; right; right. now apply position_changes_keys in H.
  - cbn [bind]. intros [= <-]. rewrite !map_app, !in_app_iff.
    intros [H | [H | [H | [H | H]]]].
    + left. destruct (lock_auto_check t); exact H.
    + right; left. destruct (lock_y_auto_check t); [| exact H].
      apply offset_changes_keys in H. now left.
    + right; right; left. destruct (hinge_auto_check t); [| exact H].
      now apply position_changes_keys in H.
    + right; right; right; left. destruct (hinge_y_auto_check t); [| exact H].
      apply offset_changes_keys in H. now left.
    + contradiction.
Qed.

(** X21.  The automatic calculations of a tab with a main window leave a tab
    that differs at most in the store: the recursion flag is as found, every
    variable outside the outputs of the checked "auto" boxes keeps its value,
    and a call that is re-entered or ends in an exception, which only happens
    with the PM box checked, writes nothing. *)
Theorem run_auto_calculations_footprint (t : tab) (st : gmap string value) :
  tab_store t = Some st ->
  exists st',
    fst (run_auto_calculations round1 t) =
      with_store t (Some st') (_auto_calculation_running t) /\
    (forall name, ~ In name (enabled_outputs t) ->
       get_dollar_variable st' name = get_dollar_variable st name) /\
    (forall name, In name (enabled_outputs t) -> In name auto_outputs) /\
    (_auto_calculation_running t = true -> st' = st) /\
    (snd (run_auto_calculations round1 t) <> None ->
       st' = st /\ pm_auto_check t = true).
Proof.
  intros Hst.
  assert (Hsub : forall name, In name (enabled_outputs t) -> In name auto_outputs).
  { unfold enabled_outputs, auto_outputs. intros name.
    rewrite !in_app_iff.
    destruct (lock_auto_check t), (lock_y_auto_check t), (hinge_auto_check t),
      (hinge_y_auto_check t), (pm_auto_check t); cbn; tauto. }
  unfold run_auto_calculations.
  destruct (_auto_calculation_running t) eqn:Hrun.
  - exists st. cbn [fst snd]. split; [| split; [| split; [| split]]].
    + destruct t; cbn in *. now subst.
    + reflexivity.
    + exact Hsub.
    + reflexivity.
    + intros H. now contradiction H.
  - destruct (auto_changes round1 t) as [changes | e] eqn:Hchanges; cbn [fst snd].
    + exists (update_dollar_variables st changes).
      split; [| split; [| split; [| split]]].
      * rewrite Hst. now destruct changes.
      * intros name Hname. apply update_dollar_variables_other.
        intros H. apply Hname. exact (auto_changes_keys t changes name Hchanges H).
      * exact Hsub.
      * discriminate.
      * intros H. now contradiction H.
    + exists st. split; [| split; [| split; [| split]]].
      * now rewrite Hst.
      * reflexivity.
      * exact Hsub.
      * reflexivity.
      * intros _. split; [reflexivity |].
        unfold auto_changes in Hchanges.
        destruct (pm_auto_check t); [reflexivity | discriminate].
Qed.

End AutoFootprint.

Lemma run_auto_calculations_footprint_witness :
  exists st',
    fst (run_auto_calculations (fun q => q) tab_min_auto) =
      with_store tab_min_auto (Some st')
        (_auto_calculation_running tab_min_auto) /\
    (forall name, ~ In name (enabled_outputs tab_min_auto) ->
       get_dollar_variable st' name = get_dollar_variable st_min_auto name) /\
    (forall name, In name (enabled_outputs tab_min_auto) ->
       In name auto_outputs) /\
    (_auto_calculation_running tab_min_auto = true -> st' = st_min_auto) /\
    (snd (run_auto_calculations (fun q => q) tab_min_auto) <> None ->
       st' = st_min_auto /\ pm_auto_check tab_min_auto = true).
Proof.
  exact (run_auto_calculations_footprint (fun q => q) tab_min_auto st_min_auto
           eq_refl).
Defined.

(** * Hinge count and the automatic calculations *)

Lemma hinge_positions_length (main_window : option (gmap string value))
    (count : nat) :
  (count <= 4)%nat ->
  (length (_calculate_hinge_positions main_window (Z.of_nat count)) <= count)%nat.
Proof.
  intros Hcount. destruct main_window as [st |]; [| cbn; lia].
  unfold _calculate_hinge_positions, hinge_positions_body.
  destruct (negb (truthy _)); [cbn; lia |].
  destruct (py_le _ 0) as [nonpos | e]; cbn [bind]; [| cbn; lia].
  assert (count = 0 \/ count = 1 \/ count = 2 \/ count = 3 \/ count = 4)%nat
    as [-> | [-> | [-> | [-> | ->]]]] by lia;
    destruct nonpos; cbv [orb Z.of_nat Pos.of_succ_nat Pos.succ Z.leb Z.eqb
                          Z.compare Pos.compare Pos.compare_cont Pos.eqb];
    try (cbn; lia).
  - destruct (num _); cbn; lia.
  - destruct (hinge_last_pos _); cbn; lia.
  - destruct (hinge_last_pos _); cbn; lia.
  - destruct (hinge_last_pos _); cbn; lia.
Qed.

Lemma hinge_position_names (i : nat) :
  (i < 4)%nat ->
  ~ In (hinge_name i "_position")
       ["lock_position"; "lock_y_offset"; "hinge_y_offset";
        "pm1_position"; "pm2_position"; "pm3_position"; "pm4_position"].
Proof.
  intros Hi.
  assert (i = 0 \/ i = 1 \/ i = 2 \/ i = 3)%nat as [-> | [-> | [-> | ->]]] by lia;
    cbn; intuition discriminate.
Qed.

Lemma hinge_active_names (i : nat) :
  (i < 4)%nat -> ~ In (hinge_name i "_active") auto_outputs.
Proof.
  intros Hi.
  assert (i = 0 \/ i = 1 \/ i = 2 \/ i = 3)%nat as [-> | [-> | [-> | ->]]] by lia;
    cbn; intuition discriminate.
Qed.

Lemma enabled_outputs_sub (t : tab) (name : string) :
  In name (enabled_outputs t) -> In name auto_outputs.
Proof.
  unfold enabled_outputs, auto_outputs. rewrite !in_app_iff.
  destruct (lock_auto_check t), (lock_y_auto_check t), (hinge_auto_check t),
    (hinge_y_auto_check t), (pm_auto_check t); cbn; tauto.
Qed.

Section HingeCount.

Variable round1 : Q -> Q.

Lemma position_changes_indices (name : nat -> string) (positions : list Q)
    (k : string) :
  In k (map fst (position_changes round1 name positions)) ->
  exists i, (i < length positions)%nat /\ (i < 4)%nat /\ k = name i.
Proof.
  unfold position_changes. rewrite in_map_iff.
  intros ([k' v] & <- & H). apply in_flat_map in H.
  destruct H as ([i p] & Hip & H). cbn [fst snd] in H.
  destruct (Nat.ltb_spec i 4) as [Hi | Hi]; [| contradiction].
  destruct H as [[= <- _] | []]. exists i.
  apply in_combine_l, in_seq in Hip. cbn [fst]. repeat split; [lia | exact Hi].
Qed.

(** A hinge position among the automatic changes belongs to a checked hinge
    box and to one of the positions the hinge routine returned. *)
Lemma auto_changes_hinge_position (t : tab) (changes : list (string * value))
    (i : nat) :
  auto_changes round1 t = Ok changes ->
  (i < 4)%nat ->
  In (hinge_name i "_position") (map fst changes) ->
  hinge_auto_check t = true /\
  (i < length (_calculate_hinge_positions (tab_store t) (hinge_count_spin t)))%nat.
Proof.
  intros Hchanges Hi Hin. pose proof (hinge_position_names i Hi) as Hnames.
  cbn [In] in Hnames.
  assert (Hpm : forall l, ~ In (hinge_name i "_position")
                            (map fst (position_changes round1 pm_name l))).
  { intros l H. apply position_changes_keys in H. cbn in H. tauto. }
  assert (Hoff : forall name offset,
            In (hinge_name i "_position")
               (map fst (offset_changes round1 name offset)) ->
            hinge_name i "_position" = name)
    by (intros name offset; apply offset_changes_keys).
  unfold auto_changes in Hchanges.
  destruct (if pm_auto_check t then _ else _) as [pms | e] eqn:Hpms;
    cbn [bind] in Hchanges; [| discriminate].
  assert (Hpms' : ~ In (hinge_name i "_position") (map fst pms)).
  { destruct (pm_auto_check t).
    - destruct (_calculate_pm_positions _) as [l | e]; cbn [bind] in Hpms;
        [| discriminate].
      injection Hpms as <-. apply Hpm.
    - injection Hpms as <-. intros []. }
  injection Hchanges as <-. rewrite !map_app, !in_app_iff in Hin.
  destruct Hin as [H | [H | [H | [H | H]]]].
  - destruct (lock_auto_check t); cbn in H; tauto.
  - destruct (lock_y_auto_check t); [| contradiction].
    apply Hoff in H. symmetry in H. tauto.
  - destruct (hinge_auto_check t); [| contradiction]. split; [reflexivity |].
    apply position_changes_indices in H. destruct H as (j & Hj & Hj4 & H).
    apply hinge_name_inj in H; [| assumption | assumption].
    destruct H as [-> _]. exact Hj.
  - destruct (hinge_y_auto_check t); [| contradiction].
    apply Hoff in H. symmetry in H. tauto.
  - contradiction.
Qed.

(** The store [run_auto_calculations] leaves is the old one with a batch of
    changes applied: none, or the changes it collected. *)
Lemma run_auto_calculations_changes (t : tab) (st : gmap string value) :
  tab_store t = Some st ->
  exists changes,
    fst (run_auto_calculations round1 t) =
      with_store t (Some (update_dollar_variables st changes))
        (_auto_calculation_running t) /\
    (changes = [] \/ auto_changes round1 t = Ok changes).
Proof.
  intros Hst. unfold run_auto_calculations.
  destruct (_auto_calculation_running t) eqn:Hrun.
  - exists []. split; [| now left]. cbn [fst update_dollar_variables fold_left].
    destruct t; cbn in *. now subst.
  - destruct (auto_changes round1 t) as [changes | e]; cbn [fst].
    + exists changes. split; [| now right]. rewrite Hst. now destruct changes.
    + exists []. split; [| now left]. now rewrite Hst.
Qed.

(** X19.  [update_hinge_count] with the count the spin box holds (0 to 4),
    on a tab with a main window.  Afterwards the hinges above the count are
    inactive with position 0 and contribute no obstacle to the solver; a
    hinge up to the count is active when its flag was unset or 0 and keeps
    its flag otherwise, and it keeps its position when the hinge box is not
    checked; outside the hinge flags and positions, the outputs of the
    checked "auto" boxes and the order variables no variable is written, and
    nothing else of the tab changes. *)
Theorem update_hinge_count_store (t : tab) (st : gmap string value)
    (count : nat) :
  tab_store t = Some st ->
  (count <= 4)%nat ->
  hinge_count_spin t = Z.of_nat count ->
  exists st',
    fst (update_hinge_count round1 t count) =
      with_store t (Some st') (_auto_calculation_running t) /\
    (forall i, (count <= i < 4)%nat ->
       get_dollar_variable st' (hinge_name i "_active") = VNum 0 /\
       get_dollar_variable st' (hinge_name i "_position") = VNum 0) /\
    hinge_obstacles st' (seq 0 4) = hinge_obstacles st' (seq 0 count) /\
    (forall i, (i < count)%nat ->
       get_dollar_variable st' (hinge_name i "_active") =
         (if is_none (get_dollar_variable st (hinge_name i "_active"))
             || py_eq0 (get_dollar_variable st (hinge_name i "_active"))
          then VNum 1
          else get_dollar_variable st (hinge_name i "_active"))) /\
    (forall i, (i < count)%nat ->
       hinge_auto_check t = false ->
       get_dollar_variable st' (hinge_name i "_position") =
         get_dollar_variable st (hinge_name i "_position")) /\
    (forall name,
       (forall i, (i < 4)%nat -> name <> hinge_name i "_active" /\
                                 name <> hinge_name i "_position") ->
       ~ In name (enabled_outputs t) ->
       ~ In name order_outputs ->
       get_dollar_variable st' name = get_dollar_variable st name).
Proof.
  intros Hst Hcount Hspin.
  set (st1 := update_dollar_variables st (hinge_count_changes st count)).
  set (t1 := with_store t (Some st1) (_auto_calculation_running t)).
  destruct (hinge_count_changes_store st st1 count Hcount eq_refl)
    as (Hoff1 & _ & Hon1 & Hkeep1).
  destruct (run_auto_calculations_changes t1 st1 eq_refl)
    as (changes & Hrun & Hchanges).
  assert (Hkeys : forall k, In k (map fst changes) ->
            In k (enabled_outputs t) /\
            forall i, (i < 4)%nat -> k = hinge_name i "_position" ->
                      hinge_auto_check t = true /\ (i < count)%nat).
  { destruct Hchanges as [-> | Hchanges]; [intros k [] |].
    intros k Hk. split.
    - exact (auto_changes_keys round1 t1 changes k Hchanges Hk).
    - intros i Hi ->.
      destruct (auto_changes_hinge_position t1 changes i Hchanges Hi Hk)
        as [Hauto Hlen].
      split; [exact Hauto |].
      pose proof (hinge_positions_length (Some st1) count Hcount) as Hle.
      cbn [t1 with_store tab_store hinge_count_spin] in Hlen.
      rewrite Hspin in Hlen. lia. }
  assert (Hactive : forall i, (i < 4)%nat ->
            ~ In (hinge_name i "_active") (map fst changes)).
  { intros i Hi Hk. apply Hkeys in Hk. destruct Hk as [Hk _].
    apply (hinge_active_names i Hi).
    now apply (enabled_outputs_sub t). }
  exists (update_dollar_variables st1 changes).
  assert (Hoff : forall i, (count <= i < 4)%nat ->
     get_dollar_variable (update_dollar_variables st1 changes)
       (hinge_name i "_active") = VNum 0 /\
     get_dollar_variable (update_dollar_variables st1 changes)
       (hinge_name i "_position") = VNum 0).
  { intros i Hi. destruct (Hoff1 i Hi) as [Ha Hp]. split.
    - rewrite update_dollar_variables_other; [exact Ha |].
      apply Hactive. lia.
    - rewrite update_dollar_variables_other; [exact Hp |].
      intros Hk. apply Hkeys in Hk. destruct Hk as [_ Hk].
      destruct (Hk i) as [_ Hlt]; [lia | reflexivity | lia]. }
  split; [| split; [| split; [| split; [| split]]]].
  - unfold update_hinge_count. rewrite Hst. fold st1. fold t1. exact Hrun.
  - exact Hoff.
  - replace (seq 0 4) with (seq 0 count ++ seq count (4 - count))
      by (rewrite <- seq_app; f_equal; lia).
    rewrite hinge_obstacles_app.
    rewrite (hinge_obstacles_inactive _ (seq count (4 - count))).
    + destruct (hinge_obstacles _ (seq 0 count)) as [zs | e]; cbn [bind];
        [now rewrite app_nil_r | reflexivity].
    + intros i Hi. apply in_seq in Hi.
      destruct (Hoff i) as [Ha _]; [lia | exact Ha].
  - intros i Hi. destruct (Hon1 i Hi) as [_ Ha].
    rewrite update_dollar_variables_other; [exact Ha |]. apply Hactive. lia.
  - intros i Hi Hauto. destruct (Hon1 i Hi) as [Hp _].
    rewrite update_dollar_variables_other; [exact Hp |].
    intros Hk. apply Hkeys in Hk. destruct Hk as [_ Hk].
    destruct (Hk i) as [Hauto' _]; [lia | reflexivity | congruence].
  - intros name Hname Hout _.
    rewrite update_dollar_variables_other; [now apply Hkeep1 |].
    intros Hk. apply Hkeys in Hk. now destruct Hk.
Qed.

End HingeCount.

Lemma update_hinge_count_store_witness :
  exists st',
    fst (update_hinge_count (fun q => q) tab_min_auto 2) =
      with_store tab_min_auto (Some st')
        (_auto_calculation_running tab_min_auto) /\
    (forall i, (2 <= i < 4)%nat ->
       get_dollar_variable st' (hinge_name i "_active") = VNum 0 /\
       get_dollar_variable st' (hinge_name i "_position") = VNum 0) /\
    hinge_obstacles st' (seq 0 4) = hinge_obstacles st' (seq 0 2) /\
    (forall i, (i < 2)%nat ->
       get_dollar_variable st' (hinge_name i "_active") =
         (if is_none (get_dollar_variable st_min_auto (hinge_name i "_active"))
             || py_eq0 (get_dollar_variable st_min_auto (hinge_name i "_active"))
          then VNum 1
          else get_dollar_variable st_min_auto (hinge_name i "_active"))) /\
    (forall i, (i < 2)%nat ->
       hinge_auto_check tab_min_auto = false ->
       get_dollar_variable st' (hinge_name i "_position") =
         get_dollar_variable st_min_auto (hinge_name i "_position")) /\
    (forall name,
       (forall i, (i < 4)%nat -> name <> hinge_name i "_active" /\
                                 name <> hinge_name i "_position") ->
       ~ In name (enabled_outputs tab_min_auto) ->
       ~ In name order_outputs ->
       get_dollar_variable st' name = get_dollar_variable st_min_auto name).
Proof.
  apply (update_hinge_count_store (fun q => q) tab_min_auto st_min_auto 2);
    [reflexivity | lia | reflexivity].
Defined.

(** * Automatic placement and validation together *)

Lemma py_or0_num (q : Q) : exists q', py_or0 (VNum q) = VNum q' /\ q' == q.
Proof.
  unfold py_or0, truthy.
  destruct (Qeq_bool_case q 0) as [[-> H] | [-> H]]; cbn [negb].
  - exists 0. split; [reflexivity | lra].
  - exists q. split; [reflexivity | lra].
Qed.

Lemma active_position_ext (st st' : gmap string value) (active position : string) :
  get_dollar_variable st' active = get_dollar_variable st active ->
  get_dollar_variable st' position = get_dollar_variable st position ->
  active_position st' active position = active_position st active position.
Proof. unfold active_position. now intros -> ->. Qed.

Lemma near_b_false (p : Q) (obstacles : list Q) :
  (forall o, In o obstacles -> 170 <= Qabs (p - o)) ->
  near_b p obstacles = false.
Proof.
  intros Hfar. destruct (near_b p obstacles) eqn:E; [| reflexivity].
  apply near_b_true in E. destruct E as (o & Ho & H).
  specialize (Hfar o Ho). lra.
Qed.

Lemma clear_zone_far (o p p' : Q) :
  clear_of (zone 170 o) p -> p' == p -> 170 <= Qabs (p' - o).
Proof.
  unfold clear_of, zone. cbn [fst snd]. intros Hclear He.
  destruct (Qlt_le_dec (Qabs (p' - o)) 170) as [Hlt | Hle]; [| exact Hle].
  exfalso. apply Qabs_Qlt_condition in Hlt. apply Hclear. lra.
Qed.

Section AutoPlacement.

Variable round1 : Q -> Q.

(** X22.  On exact inputs the automatic PM placement passes the validation.
    On a tab whose PM box is checked and whose lock and hinge boxes are not,
    with a positive frame height, all numbers the solver reads multiples of
    1/1024 up to a million (so that the source's float arithmetic does not
    round), PM1 at least 170 from every active lock and hinge, the solver's
    first choices accepted and the rounding keeping the four positions,
    [run_auto_calculations] ends without exception and [run_validation] on
    the store it leaves flags no PM. *)
Theorem auto_placement_passes_validation (t : tab) (st : gmap string value)
    (h pm1 : Q) (obstacles : list Q) (last_range : interval) :
  tab_store t = Some st ->
  _auto_calculation_running t = false ->
  lock_auto_check t = false ->
  hinge_auto_check t = false ->
  pm_auto_check t = true ->
  exact_inputs st ->
  get_dollar_variable st "frame_height" = VNum h ->
  0 < h ->
  pm1_anchor (get_dollar_variable st "pm1_position") = VNum pm1 ->
  validation_obstacles st = Ok obstacles ->
  (forall o, In o obstacles -> 170 <= Qabs (pm1 - o)) ->
  last (solver_ranges pm1 h (map (zone 170) obstacles)) = Some last_range ->
  pm1 + 202.5 + 157.5 <= snd last_range - 207.5 ->
  _position_in_valid_ranges (pm1 + min_pm1_to_pm2)
    (solver_ranges pm1 h (map (zone 170) obstacles)) = true ->
  _position_in_valid_ranges (snd last_range - min_pm3_to_pm4)
    (solver_ranges pm1 h (map (zone 170) obstacles)) = true ->
  Forall (fun q => round1 q == q)
    [pm1; pm1 + min_pm1_to_pm2; snd last_range - min_pm3_to_pm4;
     snd last_range] ->
  Forall exact_result
    [pm1; pm1 + min_pm1_to_pm2; snd last_range - min_pm3_to_pm4;
     snd last_range] /\
  exists st',
    run_auto_calculations round1 t = (with_store t (Some st') false, None) /\
    run_validation st' = Ok [false; false; false; false].
Proof.
  intros Hst Hrun Hlock Hhinge Hpm Hex Hfh Hh Hpm1 Hobs Hfar Hlast Hroom Hin2
    Hin3 Hround.
  pm_constants.
  (* the solver's zones and result *)
  assert (Hzones : pm_obstacles st = Ok (map (zone 170) obstacles)).
  { unfold pm_obstacles. rewrite hinge_obstacles_positions. unfold obstacle_of.
    unfold validation_obstacles in Hobs.
    destruct (active_position st "lock_active" "lock_position") as [lk | e];
      cbn [bind] in *; [| discriminate].
    destruct (hinge_positions st (seq 0 4)) as [ps | e]; cbn [bind] in *;
      [| discriminate].
    injection Hobs as <-. now rewrite map_app. }
  assert (Hroom' : pm1 + min_pm1_to_pm2 + min_pm2_to_pm3
                   <= snd last_range - min_pm3_to_pm4) by lra.
  pose proof (pm_positions_first_choice st h pm1 _ last_range Hfh Hh Hpm1
                Hzones Hlast Hroom' Hin2 Hin3) as Hsolve.
  split; [exact (pm_positions_exact st _ Hex Hsolve) |]. clear Hex.
  (* where the three placed PMs lie *)
  assert (Hr : In last_range (solver_ranges pm1 h (map (zone 170) obstacles))).
  { apply last_Some in Hlast. destruct Hlast as [l' ->].
    apply in_or_app. right. now left. }
  assert (Hp4 : fst last_range <= snd last_range <= snd last_range).
  { apply solver_ranges_In in Hr. lra. }
  destruct (solver_range_position pm1 h _ _ last_range Hr Hp4) as [Hb4 Hc4].
  apply position_in_valid_ranges_true in Hin2, Hin3.
  destruct Hin2 as (r2 & Hr2 & Hp2). destruct Hin3 as (r3 & Hr3 & Hp3).
  destruct (solver_range_position pm1 h _ _ r2 Hr2 Hp2) as [_ Hc2].
  destruct (solver_range_position pm1 h _ _ r3 Hr3 Hp3) as [_ Hc3].
  assert (Hzone : forall o, In o obstacles ->
                    In (zone 170 o) (map (zone 170) obstacles))
    by (intros o Ho; now apply in_map).
  rewrite List.Forall_forall in Hround.
  assert (R1 : round1 pm1 == pm1) by (apply Hround; cbn; auto).
  assert (R2 : round1 (pm1 + min_pm1_to_pm2) == pm1 + min_pm1_to_pm2)
    by (apply Hround; cbn; auto).
  assert (R3 : round1 (snd last_range - min_pm3_to_pm4)
               == snd last_range - min_pm3_to_pm4)
    by (apply Hround; cbn; auto).
  assert (R4 : round1 (snd last_range) == snd last_range)
    by (apply Hround; cbn; auto).
  clear Hround.
  (* the batch of changes *)
  unfold run_auto_calculations, auto_changes.
  rewrite Hrun, Hlock, Hhinge, Hpm, Hst, Hsolve. cbn [bind app].
  unfold position_changes.
  cbn [length seq combine flat_map fst snd Nat.ltb Nat.leb app].
  change (pm_name 0) with "pm1_position".
  change (pm_name 1) with "pm2_position".
  change (pm_name 2) with "pm3_position".
  change (pm_name 3) with "pm4_position".
  set (ly := if lock_y_auto_check t then _ else []).
  set (hy := if hinge_y_auto_check t then _ else []).
  set (pcs := [("pm1_position", VNum (round1 pm1)); _; _; _]).
  assert (Hly : forall k, In k (map fst ly) -> k = "lock_y_offset").
  { subst ly. intros k. destruct (lock_y_auto_check t); [| contradiction].
    apply offset_changes_keys. }
  assert (Hhy : forall k, In k (map fst hy) -> k = "hinge_y_offset").
  { subst hy. intros k. destruct (hinge_y_auto_check t); [| contradiction].
    apply offset_changes_keys. }
  exists (update_dollar_variables st (ly ++ hy ++ pcs)). split.
  { destruct (ly ++ hy ++ pcs) as [| c rest] eqn:E; [| reflexivity].
    apply app_eq_nil in E. destruct E as [_ E].
    apply app_eq_nil in E. destruct E as [_ E]. discriminate. }
  (* what the validation reads in the new store *)
  rewrite app_assoc, update_dollar_variables_app.
  set (st0 := update_dollar_variables st (ly ++ hy)).
  assert (Hst0 : forall k, k <> "lock_y_offset" -> k <> "hinge_y_offset" ->
                   get_dollar_variable st0 k = get_dollar_variable st k).
  { intros k Hk1 Hk2. subst st0. apply update_dollar_variables_other.
    rewrite map_app, in_app_iff.
    intros [Hin | Hin]; [apply Hly in Hin | apply Hhy in Hin]; contradiction. }
  subst pcs. unfold update_dollar_variables at 1. cbn [fold_left fst snd].
  set (st' := update_dollar_variable _ "pm4_position" _).
  assert (G1 : get_dollar_variable st' "pm1_position" = VNum (round1 pm1)).
  { subst st'. rewrite !get_update_ne by discriminate. apply get_update_eq. }
  assert (G2 : get_dollar_variable st' "pm2_position"
               = VNum (round1 (pm1 + min_pm1_to_pm2))).
  { subst st'. rewrite !get_update_ne by discriminate. apply get_update_eq. }
  assert (G3 : get_dollar_variable st' "pm3_position"
               = VNum (round1 (snd last_range - min_pm3_to_pm4))).
  { subst st'. rewrite !get_update_ne by discriminate. apply get_update_eq. }
  assert (G4 : get_dollar_variable st' "pm4_position"
               = VNum (round1 (snd last_range))).
  { subst st'. apply get_update_eq. }
  assert (Hkeep : forall k,
            ~ In k ["lock_y_offset"; "hinge_y_offset"; "pm1_position";
                    "pm2_position"; "pm3_position"; "pm4_position"] ->
            get_dollar_variable st' k = get_dollar_variable st k).
  { intros k Hk. cbn [In] in Hk. subst st'.
    rewrite !get_update_ne by (intros E; subst k; tauto).
    apply Hst0; intros E; subst k; tauto. }
  assert (Gfh : get_dollar_variable st' "frame_height" = VNum h).
  { rewrite Hkeep; [exact Hfh |]. cbn [In]. intuition discriminate. }
  assert (Gobs : validation_obstacles st' = Ok obstacles).
  { rewrite <- Hobs. unfold validation_obstacles. cbn [seq hinge_positions].
    rewrite !(active_position_ext st st');
      [reflexivity | ..];
      apply Hkeep; vm_compute; intuition discriminate. }
  (* the validation *)
  unfold run_validation. cbn [seq map].
  change (pm_name 0) with "pm1_position".
  change (pm_name 1) with "pm2_position".
  change (pm_name 2) with "pm3_position".
  change (pm_name 3) with "pm4_position".
  rewrite G1, G2, G3, G4, Gfh, Gobs.
  destruct (py_or0_num (round1 pm1)) as (q1 & -> & E1).
  destruct (py_or0_num (round1 (pm1 + min_pm1_to_pm2))) as (q2 & -> & E2).
  destruct (py_or0_num (round1 (snd last_range - min_pm3_to_pm4)))
    as (q3 & -> & E3).
  destruct (py_or0_num (round1 (snd last_range))) as (q4 & -> & E4).
  unfold py_or0 at 1. rewrite truthy_positive by exact Hh.
  cbn [nums num bind]. f_equal.
  rewrite check_distances_four, check_obstacles_four, check_height_four.
  assert (N1 : near_b q1 obstacles = false).
  { apply near_b_false. intros o Ho. specialize (Hfar o Ho).
    assert (Hq : q1 - o == pm1 - o) by lra. now rewrite Hq. }
  assert (N2 : near_b q2 obstacles = false).
  { apply near_b_false. intros o Ho.
    apply (clear_zone_far o (pm1 + min_pm1_to_pm2));
      [apply Hc2; now apply Hzone | lra]. }
  assert (N3 : near_b q3 obstacles = false).
  { apply near_b_false. intros o Ho.
    apply (clear_zone_far o (snd last_range - min_pm3_to_pm4));
      [apply Hc3; now apply Hzone | lra]. }
  assert (N4 : near_b q4 obstacles = false).
  { apply near_b_false. intros o Ho.
    apply (clear_zone_far o (snd last_range));
      [apply Hc4; now apply Hzone | lra]. }
  rewrite N1, N2, N3, N4.
  destruct (Qlt_bool_case (q2 - q1) min_pm1_to_pm2) as [[-> Hd] | [-> Hd]];
    [lra |].
  destruct (Qlt_bool_case (q3 - q2) min_pm2_to_pm3) as [[-> Hd'] | [-> Hd']];
    [lra |].
  destruct (Qlt_bool_case (q4 - q3) min_pm3_to_pm4) as [[-> Hd''] | [-> Hd'']];
    [lra |].
  destruct (Qlt_bool_case (h - pm4_half_height) q4) as [[-> Hd4] | [-> Hd4]];
    [lra |].
  now destruct (Qlt_bool 0 h).
Qed.

End AutoPlacement.

Lemma auto_placement_passes_validation_witness :
  Forall exact_result
    [-25; -25 + min_pm1_to_pm2;
     snd (1050 + 170, 2100 - pm4_half_height) - min_pm3_to_pm4;
     snd (1050 + 170, 2100 - pm4_half_height)] /\
  exists st',
    run_auto_calculations (fun q => q) tab_lock_plain =
      (with_store tab_lock_plain (Some st') false, None) /\
    run_validation st' = Ok [false; false; false; false].
Proof.
  apply (auto_placement_passes_validation (fun q => q) tab_lock_plain
           st_lock_plain 2100 (-25) [1050]
           (1050 + 170, 2100 - pm4_half_height)).
  - reflexivity.
  - reflexivity.
  - reflexivity.
  - reflexivity.
  - reflexivity.
  - exact st_lock_plain_exact.
  - reflexivity.
  - lra.
  - reflexivity.
  - reflexivity.
  - intros o [<- | []]. vm_compute. discriminate.
  - reflexivity.
  - cbn [snd]. pm_constants. lra.
  - vm_compute. reflexivity.
  - vm_compute. reflexivity.
  - repeat constructor; reflexivity.
Defined.
